(** * ParallelChecker: bounded fan-out of dispatch checks

    A model of [ParallelChecker] (package [graph]):
    [NewParallelChecker], [AddResult], [QueueCheck], [Start], [Finish].

    The Go code is concurrent: one goroutine runs the dispatch loop of
    [Start], one goroutine per received request runs a worker, and the
    caller's goroutines run [QueueCheck] and [Finish].  The model is an
    interleaving semantics: a state holds the fields of the struct plus the
    program counters of the goroutines, and [step] executes one atomic
    action of one goroutine.  A schedule is a list of events; [run] folds
    [step] over it, so every run can be evaluated.

    What the code takes from Go and its libraries is modelled by its
    documented behaviour:
    - an unbuffered channel: a send blocks until the loop receives (the
      blocked senders are kept in a queue, the receive takes any of them);
      a send on a closed channel, a close of a closed channel, and a close
      with senders blocked on the channel panic; a receive on a closed
      channel reports [ok = false];
    - [semaphore.Weighted]: [Acquire(ctx, n)] returns nil only when [n]
      tokens are free, and returns [ctx.Err()] only when [ctx] is done; when
      both hold, either may happen (versions of the library differ);
      [Release] of more than is held panics;
    - [errgroup.Group]: the first non-nil error a task returns is kept and
      cancels the group's context; [Wait] returns it once every task has
      returned;
    - the Dispatch Backend: a call returns a membership or an error, of its
      own choosing and in its own time; it may also return neither, and
      the worker then panics on the nil response.

    The caller follows the lifecycle of the design in that [Start] runs
    once, and before [Finish].  [QueueCheck] may be called at any time and
    [Finish] any number of times, also out of turn: the model then shows
    the panic.

    A second, small part of the file is about the options of the schema
    compiler (package [compiler]). *)

From stdpp Require Import base list strings.

Set Default Proof Using "Type".

(** ** Data *)

(** Modelled from the spec: [core.ObjectAndRelation] (pkg/proto/core/v1 is
    not part of the sources at hand), "immutable (object-type, object-id,
    relation) triple". *)
Record ObjectAndRelation := ONR {
  Namespace : string;
  ObjectId : string;
  Relation : string;
}.

#[global] Instance ObjectAndRelation_eq_dec : EqDecision ObjectAndRelation.
Proof. solve_decision. Defined.

(** Go [error] values the code can see: the two values of [ctx.Err()] and
    whatever the Dispatch Backend returns (opaque, identified by message). *)
Inductive error :=
  | Canceled
  | DeadlineExceeded
  | BackendError (msg : string).

#[global] Instance error_eq_dec : EqDecision error.
Proof. solve_decision. Defined.

(** [ctx.Err()] of a cancelled lifetime is one of two values. *)
Definition is_ctx_error (e : error) : bool :=
  match e with
  | Canceled | DeadlineExceeded => true
  | BackendError _ => false
  end.

(** Modelled from the spec: [v1.DispatchCheckResponse_Membership]
    (pkg/proto/dispatch/v1 is not part of the sources at hand); the code
    compares against [MEMBER] only. *)
Inductive Membership := UNKNOWN | NOT_MEMBER | MEMBER.

#[global] Instance Membership_eq_dec : EqDecision Membership.
Proof. solve_decision. Defined.

(** Modelled from the spec: [tuple.ONRSet] (pkg/tuple is not part of the
    sources at hand), "deduplicated set of Candidate Resource identities";
    [Add] is idempotent. *)
Definition ONRSet := list ObjectAndRelation.

Definition NewONRSet : ONRSet := [].

Definition ONRSet_Add (onr : ObjectAndRelation) (set : ONRSet) : ONRSet :=
  if decide (onr ∈ set) then set else set ++ [onr].

(** Runtime panics of the Go operations the code performs. *)
Inductive Panic :=
  | SendOnClosedChannel
  | CloseOfClosedChannel
  | ReleasedMoreThanHeld
  | NilDereference.

(** [semaphore.Weighted] with size [size] and [cur] tokens taken.  [Acquire]
    succeeds only when [n] more tokens fit; [Release] of more than is held
    panics. *)
Definition sem_acquire (size cur n : nat) : option nat :=
  if decide (cur + n ≤ size) then Some (cur + n) else None.

Definition sem_release (cur n : nat) : option nat :=
  if decide (n ≤ cur) then Some (cur - n) else None.

Section ParallelChecker.

(** [v1.ResolverMeta] is opaque to this package: the code only moves the
    pointer around.  It is a parameter of the whole development. *)
Variable ResolverMeta : Type.

(** [v1.DispatchCheckRequest], the three fields [QueueCheck] sets. *)
Record DispatchCheckRequest := Request {
  Metadata : ResolverMeta;
  ObjectAndRelation_ : ObjectAndRelation;
  Subject : ObjectAndRelation;
}.

(** What one [pc.c.DispatchCheck(pc.checkCtx, req)] call returns:
    [(res, nil)] with [res.Membership], or [(_, err)] with an error, or
    [(nil, nil)]: nothing in the code keeps the backend from returning
    neither a response nor an error. *)
Inductive Outcome :=
  | Responded (m : Membership)
  | Failed (err : error)
  | NoResponse.

(** Program counter of a worker goroutine (lines 61-71 of the source). *)
Inductive Phase :=
  | PCall                  (* inside DispatchCheck, line 63 *)
  | PRet (o : Outcome)     (* DispatchCheck returned, lines 64-70 not yet run *)
  | PDefer (o : Outcome)   (* body done, deferred sem.Release(1) pending *)
  | PExit (o : Outcome)    (* func returned to errgroup's wrapper *)
  | PDone (o : Outcome).   (* wrapper recorded the error, wg.Done() *)

Record Worker := MkWorker {
  w_req : DispatchCheckRequest;
  w_phase : Phase;
}.

(** Program counter of the dispatch loop goroutine (lines 49-77). *)
Inductive LoopState :=
  | LNotStarted
  | LAcquire                       (* at sem.Acquire(pc.checkCtx, 1), line 52 *)
  | LRecv                          (* at <-pc.toCheck, line 55, one token held *)
  | LDrain                         (* at sem.Acquire(pc.checkCtx, N), line 73 *)
  | LExit (err : option error)     (* func returned to errgroup's wrapper *)
  | LDone (err : option error).    (* wrapper recorded the error, wg.Done() *)

(** The caller of [Finish]: not called, blocked in [pc.g.Wait()], returned. *)
Inductive FinishState :=
  | FIdle
  | FWait
  | FRet (collector : option ONRSet) (err : option error).

(** The struct's fields, the goroutines, and two ghost logs. *)
Record State := MkState {
  subject : ObjectAndRelation;
  maxConcurrent : nat;
  ctx : option error;                       (* Err() of the caller's lifetime *)
  checkCtx : option error;                  (* Err() of the group's lifetime *)
  toCheck_closed : bool;
  toCheck_sendq : list DispatchCheckRequest; (* goroutines blocked in the send *)
  sem_cur : nat;
  loop : LoopState;
  workers : list Worker;
  results : ONRSet;
  g_err : option error;                     (* errgroup: first non-nil error *)
  fin : FinishState;
  panicked : option Panic;
  queued : list (ObjectAndRelation * ResolverMeta); (* ghost: QueueCheck calls *)
  failures : list error;                    (* ghost: task errors, in order *)
}.

(** Field updates. *)
Definition set_ctx (v : option error) (s : State) : State :=
  MkState (subject s) (maxConcurrent s) v (checkCtx s) (toCheck_closed s)
    (toCheck_sendq s) (sem_cur s) (loop s) (workers s) (results s) (g_err s)
    (fin s) (panicked s) (queued s) (failures s).
Definition set_checkCtx (v : option error) (s : State) : State :=
  MkState (subject s) (maxConcurrent s) (ctx s) v (toCheck_closed s)
    (toCheck_sendq s) (sem_cur s) (loop s) (workers s) (results s) (g_err s)
    (fin s) (panicked s) (queued s) (failures s).
Definition set_closed (v : bool) (s : State) : State :=
  MkState (subject s) (maxConcurrent s) (ctx s) (checkCtx s) v
    (toCheck_sendq s) (sem_cur s) (loop s) (workers s) (results s) (g_err s)
    (fin s) (panicked s) (queued s) (failures s).
Definition set_sendq (v : list DispatchCheckRequest) (s : State) : State :=
  MkState (subject s) (maxConcurrent s) (ctx s) (checkCtx s) (toCheck_closed s)
    v (sem_cur s) (loop s) (workers s) (results s) (g_err s)
    (fin s) (panicked s) (queued s) (failures s).
Definition set_sem (v : nat) (s : State) : State :=
  MkState (subject s) (maxConcurrent s) (ctx s) (checkCtx s) (toCheck_closed s)
    (toCheck_sendq s) v (loop s) (workers s) (results s) (g_err s)
    (fin s) (panicked s) (queued s) (failures s).
Definition set_loop (v : LoopState) (s : State) : State :=
  MkState (subject s) (maxConcurrent s) (ctx s) (checkCtx s) (toCheck_closed s)
    (toCheck_sendq s) (sem_cur s) v (workers s) (results s) (g_err s)
    (fin s) (panicked s) (queued s) (failures s).
Definition set_workers (v : list Worker) (s : State) : State :=
  MkState (subject s) (maxConcurrent s) (ctx s) (checkCtx s) (toCheck_closed s)
    (toCheck_sendq s) (sem_cur s) (loop s) v (results s) (g_err s)
    (fin s) (panicked s) (queued s) (failures s).
Definition set_results (v : ONRSet) (s : State) : State :=
  MkState (subject s) (maxConcurrent s) (ctx s) (checkCtx s) (toCheck_closed s)
    (toCheck_sendq s) (sem_cur s) (loop s) (workers s) v (g_err s)
    (fin s) (panicked s) (queued s) (failures s).
Definition set_g_err (v : option error) (s : State) : State :=
  MkState (subject s) (maxConcurrent s) (ctx s) (checkCtx s) (toCheck_closed s)
    (toCheck_sendq s) (sem_cur s) (loop s) (workers s) (results s) v
    (fin s) (panicked s) (queued s) (failures s).
Definition set_fin (v : FinishState) (s : State) : State :=
  MkState (subject s) (maxConcurrent s) (ctx s) (checkCtx s) (toCheck_closed s)
    (toCheck_sendq s) (sem_cur s) (loop s) (workers s) (results s) (g_err s)
    v (panicked s) (queued s) (failures s).
Definition set_panicked (v : option Panic) (s : State) : State :=
  MkState (subject s) (maxConcurrent s) (ctx s) (checkCtx s) (toCheck_closed s)
    (toCheck_sendq s) (sem_cur s) (loop s) (workers s) (results s) (g_err s)
    (fin s) v (queued s) (failures s).
Definition set_queued (v : list (ObjectAndRelation * ResolverMeta)) (s : State) : State :=
  MkState (subject s) (maxConcurrent s) (ctx s) (checkCtx s) (toCheck_closed s)
    (toCheck_sendq s) (sem_cur s) (loop s) (workers s) (results s) (g_err s)
    (fin s) (panicked s) v (failures s).
Definition set_failures (v : list error) (s : State) : State :=
  MkState (subject s) (maxConcurrent s) (ctx s) (checkCtx s) (toCheck_closed s)
    (toCheck_sendq s) (sem_cur s) (loop s) (workers s) (results s) (g_err s)
    (fin s) (panicked s) (queued s) v.

Definition panic (p : Panic) (s : State) : State := set_panicked (Some p) s.

(** ** The operations *)

(** [NewParallelChecker(ctx, c, subject, maxConcurrent)], lines 28-32.
    [errgroup.WithContext(ctx)] derives [checkCtx] from [ctx]: it is done
    from the start when [ctx] is.  The channel is open and unbuffered, the
    result set is fresh.  [maxConcurrent] is a [uint8] in the source; the
    model takes any natural number, the values below 256 included. *)
Definition NewParallelChecker (ctx0 : option error)
    (subject0 : ObjectAndRelation) (maxConcurrent0 : nat) : State :=
  MkState subject0 maxConcurrent0 ctx0 ctx0 false [] 0 LNotStarted []
    NewONRSet None FIdle None [] [].

(** Cancelling a lifetime that is already done changes nothing. *)
Definition cancel_checkCtx (e : error) (s : State) : State :=
  match checkCtx s with
  | Some _ => s
  | None => set_checkCtx (Some e) s
  end.

(** The caller's lifetime ends (cancel or deadline); [checkCtx] is its
    child. *)
Definition ctx_cancel (e : error) (s : State) : option State :=
  if is_ctx_error e then
    match ctx s with
    | Some _ => Some s
    | None => Some (cancel_checkCtx e (set_ctx (Some e) s))
    end
  else None.

(** errgroup's wrapper around a task's function: the first non-nil error
    is kept ([errOnce]) and cancels the group's lifetime; then [wg.Done()]. *)
Definition record_err (err : option error) (s : State) : State :=
  match err with
  | None => s
  | Some e =>
      let s1 := set_failures (failures s ++ [e]) s in
      match g_err s1 with
      | Some _ => s1
      | None => cancel_checkCtx Canceled (set_g_err (Some e) s1)
      end
  end.

(** [pc.AddResult(resource)], lines 34-38: one insertion under [pc.mu]. *)
Definition AddResult (resource : ObjectAndRelation) (s : State) : State :=
  set_results (ONRSet_Add resource (results s)) s.

(** [pc.QueueCheck(resource, meta)], lines 40-46: builds the request and
    sends it on the unbuffered channel.  The sender blocks in the send
    queue until the loop receives; sending on a closed channel panics. *)
Definition QueueCheck (resource : ObjectAndRelation) (meta : ResolverMeta)
    (s : State) : option State :=
  let req := Request meta resource (subject s) in
  let s1 := set_queued (queued s ++ [(resource, meta)]) s in
  if toCheck_closed s1 then Some (panic SendOnClosedChannel s1)
  else Some (set_sendq (toCheck_sendq s1 ++ [req]) s1).

(** [pc.Start()], line 48-49: [pc.g.Go] spawns the loop goroutine, which
    creates its semaphore (no token taken) and goes to line 52.  The caller
    protocol has [Start] run once, first: a second [Start] is not a step. *)
Definition Start (s : State) : option State :=
  match loop s with
  | LNotStarted => Some (set_loop LAcquire s)
  | _ => None
  end.

(** Line 52, [sem.Acquire(pc.checkCtx, 1)] returning nil. *)
Definition loop_acquire_ok (s : State) : option State :=
  match loop s with
  | LAcquire =>
      cur ← sem_acquire (maxConcurrent s) (sem_cur s) 1;
      Some (set_loop LRecv (set_sem cur s))
  | _ => None
  end.

(** Lines 52-54, [sem.Acquire(pc.checkCtx, 1)] returning [ctx.Err()]:
    possible once [checkCtx] is done. *)
Definition loop_acquire_err (s : State) : option State :=
  match loop s with
  | LAcquire =>
      e ← checkCtx s;
      Some (set_loop (LExit (Some e)) s)
  | _ => None
  end.

(** Lines 55 and 61: the loop receives the request of the [i]-th blocked
    sender and [pc.g.Go] spawns its worker. *)
Definition loop_recv (i : nat) (s : State) : option State :=
  match loop s with
  | LRecv =>
      req ← toCheck_sendq s !! i;
      Some (set_loop LAcquire
             (set_workers (workers s ++ [MkWorker req PCall])
               (set_sendq (delete i (toCheck_sendq s)) s)))
  | _ => None
  end.

(** Lines 55-59: the receive reports the channel closed; the loop gives
    its token back and leaves the [for]. *)
Definition loop_recv_closed (s : State) : option State :=
  match loop s with
  | LRecv =>
      if toCheck_closed s then
        match toCheck_sendq s with
        | [] =>
            match sem_release (sem_cur s) 1 with
            | Some cur => Some (set_loop LDrain (set_sem cur s))
            | None => Some (panic ReleasedMoreThanHeld s)
            end
        | _ :: _ => None
        end
      else None
  | _ => None
  end.

(** Lines 73-76, [sem.Acquire(pc.checkCtx, N)] returning nil. *)
Definition loop_drain_ok (s : State) : option State :=
  match loop s with
  | LDrain =>
      cur ← sem_acquire (maxConcurrent s) (sem_cur s) (maxConcurrent s);
      Some (set_loop (LExit None) (set_sem cur s))
  | _ => None
  end.

(** Lines 73-75, the same call returning [ctx.Err()]. *)
Definition loop_drain_err (s : State) : option State :=
  match loop s with
  | LDrain =>
      e ← checkCtx s;
      Some (set_loop (LExit (Some e)) s)
  | _ => None
  end.

(** errgroup's wrapper after the loop's function returned. *)
Definition loop_return (s : State) : option State :=
  match loop s with
  | LExit err => Some (set_loop (LDone err) (record_err err s))
  | _ => None
  end.

Definition set_phase (i : nat) (w : Worker) (p : Phase) (s : State) : State :=
  set_workers (<[i := MkWorker (w_req w) p]> (workers s)) s.

(** Line 63: the backend call of worker [i] returns [o].  When it returns
    [(nil, nil)], line 64 finds no error and line 67 reads
    [res.Membership] of the nil response: the goroutine panics.  Between
    the return and that read the worker touches nothing but its own
    variables, so the return and the panic are one step. *)
Definition backend_return (i : nat) (o : Outcome) (s : State) : option State :=
  w ← workers s !! i;
  match w_phase w with
  | PCall =>
      match o with
      | NoResponse => Some (panic NilDereference (set_phase i w (PRet o) s))
      | _ => Some (set_phase i w (PRet o) s)
      end
  | _ => None
  end.

(** Lines 64-70: return the error, or insert the resource when the
    membership is [MEMBER], and return nil.  With neither an error nor a
    response, line 67 panics (the program is then already stopped by
    [backend_return]). *)
Definition worker_body (i : nat) (s : State) : option State :=
  w ← workers s !! i;
  match w_phase w with
  | PRet (Failed err) => Some (set_phase i w (PDefer (Failed err)) s)
  | PRet (Responded m) =>
      if decide (m = MEMBER)
      then Some (set_phase i w (PDefer (Responded m))
                   (AddResult (ObjectAndRelation_ (w_req w)) s))
      else Some (set_phase i w (PDefer (Responded m)) s)
  | PRet NoResponse => Some (panic NilDereference s)
  | _ => None
  end.

(** Line 62: the deferred [sem.Release(1)]. *)
Definition worker_release (i : nat) (s : State) : option State :=
  w ← workers s !! i;
  match w_phase w with
  | PDefer o =>
      match sem_release (sem_cur s) 1 with
      | Some cur => Some (set_phase i w (PExit o) (set_sem cur s))
      | None => Some (panic ReleasedMoreThanHeld s)
      end
  | _ => None
  end.

Definition err_of (o : Outcome) : option error :=
  match o with
  | Responded _ | NoResponse => None
  | Failed err => Some err
  end.

(** errgroup's wrapper after the worker's function returned. *)
Definition worker_return (i : nat) (s : State) : option State :=
  w ← workers s !! i;
  match w_phase w with
  | PExit o => Some (set_phase i w (PDone o) (record_err (err_of o) s))
  | _ => None
  end.

(** [pc.Finish()], line 81: [close(pc.toCheck)].  Closing a closed channel
    panics; senders blocked on the channel panic when it is closed.  The
    caller protocol has [Finish] after [Start]. *)
Definition Finish_close (s : State) : option State :=
  match loop s with
  | LNotStarted => None
  | _ =>
      if toCheck_closed s then Some (panic CloseOfClosedChannel s)
      else
        let s1 := set_fin FWait (set_closed true s) in
        match toCheck_sendq s with
        | [] => Some s1
        | _ :: _ => Some (panic SendOnClosedChannel s1)
        end
  end.

Definition is_done (w : Worker) : bool :=
  match w_phase w with
  | PDone _ => true
  | _ => false
  end.

Definition loop_done (l : LoopState) : bool :=
  match l with
  | LDone _ => true
  | _ => false
  end.

(** What [Finish] hands back, lines 82-86. *)
Definition Finish_result (s : State) : FinishState :=
  match g_err s with
  | Some err => FRet None (Some err)
  | None => FRet (Some (results s)) None
  end.

(** Lines 82-86: [pc.g.Wait()] returns once every task of the group has
    returned (it then cancels the group's lifetime), and [Finish] returns
    [(nil, err)] or [(pc.results, nil)]. *)
Definition Finish_wait (s : State) : option State :=
  match fin s with
  | FWait =>
      if loop_done (loop s) && forallb is_done (workers s)
      then Some (cancel_checkCtx Canceled (set_fin (Finish_result s) s))
      else None
  | _ => None
  end.

(** ** Schedules *)

Inductive Event :=
  | CtxCancel (e : error)
  | CallStart
  | CallQueueCheck (resource : ObjectAndRelation) (meta : ResolverMeta)
  | CallFinish
  | LoopAcquireOk
  | LoopAcquireErr
  | LoopRecv (i : nat)
  | LoopRecvClosed
  | LoopDrainOk
  | LoopDrainErr
  | LoopReturn
  | BackendReturn (i : nat) (o : Outcome)
  | WorkerBody (i : nat)
  | WorkerRelease (i : nat)
  | WorkerReturn (i : nat)
  | WaitReturn.

(** One atomic action.  [None]: the action is not enabled (the goroutine
    is elsewhere, or blocked).  A panicked program takes no step. *)
Definition step (e : Event) (s : State) : option State :=
  match panicked s with
  | Some _ => None
  | None =>
      match e with
      | CtxCancel err => ctx_cancel err s
      | CallStart => Start s
      | CallQueueCheck resource meta => QueueCheck resource meta s
      | CallFinish => Finish_close s
      | LoopAcquireOk => loop_acquire_ok s
      | LoopAcquireErr => loop_acquire_err s
      | LoopRecv i => loop_recv i s
      | LoopRecvClosed => loop_recv_closed s
      | LoopDrainOk => loop_drain_ok s
      | LoopDrainErr => loop_drain_err s
      | LoopReturn => loop_return s
      | BackendReturn i o => backend_return i o s
      | WorkerBody i => worker_body i s
      | WorkerRelease i => worker_release i s
      | WorkerReturn i => worker_return i s
      | WaitReturn => Finish_wait s
      end
  end.

Fixpoint run (evs : list Event) (s : State) : option State :=
  match evs with
  | [] => Some s
  | e :: evs' =>
      match step e s with
      | Some s' => run evs' s'
      | None => None
      end
  end.

End ParallelChecker.

Arguments NewParallelChecker {ResolverMeta}.
Arguments CtxCancel {ResolverMeta}.
Arguments CallStart {ResolverMeta}.
Arguments CallQueueCheck {ResolverMeta}.
Arguments CallFinish {ResolverMeta}.
Arguments LoopAcquireOk {ResolverMeta}.
Arguments LoopAcquireErr {ResolverMeta}.
Arguments LoopRecv {ResolverMeta}.
Arguments LoopRecvClosed {ResolverMeta}.
Arguments LoopDrainOk {ResolverMeta}.
Arguments LoopDrainErr {ResolverMeta}.
Arguments LoopReturn {ResolverMeta}.
Arguments BackendReturn {ResolverMeta}.
Arguments WorkerBody {ResolverMeta}.
Arguments WorkerRelease {ResolverMeta}.
Arguments WorkerReturn {ResolverMeta}.
Arguments WaitReturn {ResolverMeta}.
Arguments Request {ResolverMeta}.
Arguments MkWorker {ResolverMeta}.
Arguments subject {ResolverMeta}.
Arguments maxConcurrent {ResolverMeta}.
Arguments ctx {ResolverMeta}.
Arguments checkCtx {ResolverMeta}.
Arguments toCheck_closed {ResolverMeta}.
Arguments toCheck_sendq {ResolverMeta}.
Arguments sem_cur {ResolverMeta}.
Arguments loop {ResolverMeta}.
Arguments workers {ResolverMeta}.
Arguments results {ResolverMeta}.
Arguments g_err {ResolverMeta}.
Arguments fin {ResolverMeta}.
Arguments panicked {ResolverMeta}.
Arguments queued {ResolverMeta}.
Arguments failures {ResolverMeta}.
Arguments set_ctx {ResolverMeta}.
Arguments set_checkCtx {ResolverMeta}.
Arguments set_closed {ResolverMeta}.
Arguments set_sendq {ResolverMeta}.
Arguments set_sem {ResolverMeta}.
Arguments set_loop {ResolverMeta}.
Arguments set_workers {ResolverMeta}.
Arguments set_results {ResolverMeta}.
Arguments set_g_err {ResolverMeta}.
Arguments set_fin {ResolverMeta}.
Arguments set_panicked {ResolverMeta}.
Arguments set_queued {ResolverMeta}.
Arguments set_failures {ResolverMeta}.
Arguments panic {ResolverMeta}.
Arguments cancel_checkCtx {ResolverMeta}.
Arguments ctx_cancel {ResolverMeta}.
Arguments record_err {ResolverMeta}.
Arguments AddResult {ResolverMeta}.
Arguments QueueCheck {ResolverMeta}.
Arguments Start {ResolverMeta}.
Arguments loop_acquire_ok {ResolverMeta}.
Arguments loop_acquire_err {ResolverMeta}.
Arguments loop_recv {ResolverMeta}.
Arguments loop_recv_closed {ResolverMeta}.
Arguments loop_drain_ok {ResolverMeta}.
Arguments loop_drain_err {ResolverMeta}.
Arguments loop_return {ResolverMeta}.
Arguments set_phase {ResolverMeta}.
Arguments backend_return {ResolverMeta}.
Arguments worker_body {ResolverMeta}.
Arguments worker_release {ResolverMeta}.
Arguments worker_return {ResolverMeta}.
Arguments Finish_close {ResolverMeta}.
Arguments is_done {ResolverMeta}.
Arguments Finish_result {ResolverMeta}.
Arguments Finish_wait {ResolverMeta}.
Arguments Metadata {ResolverMeta}.
Arguments ObjectAndRelation_ {ResolverMeta}.
Arguments Subject {ResolverMeta}.
Arguments w_req {ResolverMeta}.
Arguments w_phase {ResolverMeta}.
Arguments MkState {ResolverMeta}.
Arguments step {ResolverMeta}.
Arguments run {ResolverMeta}.

(** * Compile options

    The options of the schema compiler (package [compiler]): the [config]
    struct, the five option constructors, and the way [compileImpl] builds
    its configuration from them.  A Go option is a function that updates
    the configuration in place; here it is a function from the
    configuration to the updated one.  A [*string] is an [option string]:
    nothing in these functions looks at the identity of the pointer. *)

Module compiler.

(** [config], lines 53-59. *)
Record config := Config {
  skipValidation : bool;
  objectTypePrefix : option string;
  sourceFolder : string;
}.

(** The types [Option] and [ObjectPrefixOption], lines 85-87: functions
    that take a pointer to the configuration. *)
Definition Option := config → config.

Definition ObjectPrefixOption := config → config.

(** Line 61: [cfg.skipValidation = true]. *)
Definition SkipValidation : Option :=
  λ cfg, Config true (objectTypePrefix cfg) (sourceFolder cfg).

(** Lines 65-67: [cfg.objectTypePrefix = &prefix]. *)
Definition ObjectTypePrefix (prefix : string) : ObjectPrefixOption :=
  λ cfg, Config (skipValidation cfg) (Some prefix) (sourceFolder cfg).

(** Lines 70-72: [cfg.objectTypePrefix = nil]. *)
Definition RequirePrefixedObjectType : ObjectPrefixOption :=
  λ cfg, Config (skipValidation cfg) None (sourceFolder cfg).

(** Lines 75-77: [cfg.objectTypePrefix = new(string)], a pointer to the
    empty string. *)
Definition AllowUnprefixedObjectType : ObjectPrefixOption :=
  λ cfg, Config (skipValidation cfg) (Some EmptyString) (sourceFolder cfg).

(** Lines 81-83: [cfg.sourceFolder = sourceFolder]. *)
Definition SourceFolder (sourceFolder0 : string) : Option :=
  λ cfg, Config (skipValidation cfg) (objectTypePrefix cfg) sourceFolder0.

(** [&config{}], line 114: every field at its zero value. *)
Definition zero_config : config := Config false None EmptyString.

(** [compileImpl], lines 114-119: the prefix option is applied to the
    zero configuration, then the options in the order given.  (The rest
    of [compileImpl] hands the configuration to the parser and the
    translator, which are not among the sources at hand.) *)
Definition compileImpl_cfg (prefix : ObjectPrefixOption) (opts : list Option) :
    config :=
  foldl (λ cfg fn, fn cfg) (prefix zero_config) opts.

(** The values of type [Option] this file constructs. *)
Definition own_option (fn : Option) : Prop :=
  fn = SkipValidation ∨ ∃ d, fn = SourceFolder d.

End compiler.

(** A list of options to compile with: two source folders and
    [SkipValidation] between them. *)
Definition sample_options : list compiler.Option :=
  [compiler.SourceFolder "schemas"; compiler.SkipValidation;
   compiler.SourceFolder "imports"].

(** * Observations on a state *)

(** Workers that have not yet run their deferred [sem.Release(1)] hold the
    token the loop acquired for them. *)
Definition holds_token (p : Phase) : nat :=
  match p with
  | PCall | PRet _ | PDefer _ => 1
  | PExit _ | PDone _ => 0
  end.

(** Workers inside the backend call. *)
Definition in_call (p : Phase) : nat :=
  match p with
  | PCall => 1
  | _ => 0
  end.

(** Tokens the loop goroutine holds itself: one between lines 52 and 61,
    all [N] once line 73 succeeded. *)
Definition loop_held (N : nat) (l : LoopState) : nat :=
  match l with
  | LRecv => 1
  | LExit None | LDone None => N
  | _ => 0
  end.

(** Workers that ran [pc.AddResult]. *)
Definition inserted_phase (p : Phase) : bool :=
  match p with
  | PDefer (Responded MEMBER) | PExit (Responded MEMBER)
  | PDone (Responded MEMBER) => true
  | _ => false
  end.

(** The backend's answer, once the call returned. *)
Definition outcome_of (p : Phase) : option Outcome :=
  match p with
  | PCall => None
  | PRet o | PDefer o | PExit o | PDone o => Some o
  end.

(** The error the loop's task handed to errgroup. *)
Definition loop_errors (l : LoopState) : list error :=
  match l with
  | LDone (Some e) => [e]
  | _ => []
  end.

(** The loop's function returned nil: line 73 took the whole pool. *)
Definition exited_ok (l : LoopState) : bool :=
  match l with
  | LExit None | LDone None => true
  | _ => false
  end.

(** With an empty pool the loop can only wait at line 52 or fail there. *)
Definition tokenless_loop (l : LoopState) : Prop :=
  match l with
  | LNotStarted | LAcquire | LExit (Some _) | LDone (Some _) => True
  | _ => False
  end.

Definition returned (f : FinishState) : bool :=
  match f with
  | FRet _ _ => true
  | _ => false
  end.

(** Steps left to a goroutine before it is done. *)
Definition phase_rank (p : Phase) : nat :=
  match p with
  | PCall => 4
  | PRet _ => 3
  | PDefer _ => 2
  | PExit _ => 1
  | PDone _ => 0
  end.

Definition loop_rank (l : LoopState) : nat :=
  match l with
  | LNotStarted => 5
  | LAcquire => 4
  | LRecv => 3
  | LDrain => 2
  | LExit _ => 1
  | LDone _ => 0
  end.

Definition fin_rank (f : FinishState) : nat :=
  match f with
  | FIdle => 2
  | FWait => 1
  | FRet _ _ => 0
  end.

(** * Runs

    Concrete schedules, with numbers for the resolver metadata.  Each
    state below is the one its schedule ends in. *)

Definition user_u : ObjectAndRelation := ONR "user" "u" "...".
Definition doc_a : ObjectAndRelation := ONR "document" "a" "viewer".
Definition doc_b : ObjectAndRelation := ONR "document" "b" "viewer".
Definition doc_c : ObjectAndRelation := ONR "document" "c" "viewer".

Definition final (evs : list (Event nat)) (s0 : State nat) : State nat :=
  match run evs s0 with
  | Some s => s
  | None => s0
  end.

(** Ceiling 2: two checks are with the backend, a third caller is blocked
    in [QueueCheck], and the loop is blocked at line 52. *)
Definition two_in_flight : list (Event nat) :=
  [CallStart; LoopAcquireOk; CallQueueCheck doc_a 5; LoopRecv 0;
   LoopAcquireOk; CallQueueCheck doc_b 5; LoopRecv 0; CallQueueCheck doc_c 5].

Definition two_in_flight_state : State nat :=
  Eval vm_compute in final two_in_flight (NewParallelChecker None user_u 2).

(** Ceiling 2: a MEMBER, b NOT_MEMBER, c MEMBER, a again MEMBER, finishing
    out of order, then [Finish]. *)
Definition members_run : list (Event nat) :=
  [CallStart; LoopAcquireOk; CallQueueCheck doc_a 5; LoopRecv 0;
   LoopAcquireOk; CallQueueCheck doc_b 5; LoopRecv 0;
   BackendReturn 1 (Responded NOT_MEMBER); BackendReturn 0 (Responded MEMBER);
   WorkerBody 1; WorkerRelease 1; LoopAcquireOk;
   CallQueueCheck doc_c 5; LoopRecv 0; BackendReturn 2 (Responded MEMBER);
   WorkerBody 2; WorkerBody 0; WorkerRelease 0; LoopAcquireOk;
   CallQueueCheck doc_a 4; LoopRecv 0; BackendReturn 3 (Responded MEMBER);
   WorkerBody 3; WorkerRelease 2; WorkerRelease 3;
   WorkerReturn 0; WorkerReturn 1; WorkerReturn 2; WorkerReturn 3;
   CallFinish; LoopAcquireOk; LoopRecvClosed; LoopDrainOk; LoopReturn;
   WaitReturn].

Definition members_state : State nat :=
  Eval vm_compute in final members_run (NewParallelChecker None user_u 2).

(** Ceiling 1: a MEMBER, then b fails. *)
Definition failing_run : list (Event nat) :=
  [CallStart; LoopAcquireOk; CallQueueCheck doc_a 5; LoopRecv 0;
   BackendReturn 0 (Responded MEMBER); WorkerBody 0; WorkerRelease 0;
   WorkerReturn 0; LoopAcquireOk; CallQueueCheck doc_b 5; LoopRecv 0;
   BackendReturn 1 (Failed (BackendError "backend down"));
   WorkerBody 1; WorkerRelease 1; WorkerReturn 1;
   LoopAcquireErr; LoopReturn; CallFinish; WaitReturn].

Definition failing_state : State nat :=
  Eval vm_compute in final failing_run (NewParallelChecker None user_u 1).

(** Ceiling 1: the check of a answers MEMBER and is inserted; its worker
    still has the only token, so the loop is blocked at line 52 when the
    caller cancels, and the [Acquire] fails; the worker then returns nil. *)
Definition cancelled_run : list (Event nat) :=
  [CallStart; LoopAcquireOk; CallQueueCheck doc_a 5; LoopRecv 0;
   BackendReturn 0 (Responded MEMBER); WorkerBody 0;
   CtxCancel Canceled; LoopAcquireErr;
   WorkerRelease 0; WorkerReturn 0; LoopReturn; CallFinish; WaitReturn].

Definition cancelled_state : State nat :=
  Eval vm_compute in final cancelled_run (NewParallelChecker None user_u 1).

(** No check at all: ceiling 1 and a live lifetime; ceiling 1 and a
    lifetime cancelled before the loop's first [Acquire]; ceiling 0 and a
    deadline that passes while [Finish] waits. *)
Definition idle_run : list (Event nat) :=
  [CallStart; LoopAcquireOk; CallFinish; LoopRecvClosed; LoopDrainOk;
   LoopReturn; WaitReturn].

Definition idle_state : State nat :=
  Eval vm_compute in final idle_run (NewParallelChecker None user_u 1).

Definition idle_cancelled_run : list (Event nat) :=
  [CallStart; CtxCancel Canceled; LoopAcquireErr; LoopReturn; CallFinish;
   WaitReturn].

Definition idle_cancelled_state : State nat :=
  Eval vm_compute in
    final idle_cancelled_run (NewParallelChecker None user_u 1).

Definition tokenless_run : list (Event nat) :=
  [CallStart; CallFinish; CtxCancel DeadlineExceeded; LoopAcquireErr;
   LoopReturn; WaitReturn].

Definition tokenless_state : State nat :=
  Eval vm_compute in final tokenless_run (NewParallelChecker None user_u 0).

(** Ceiling 0: the dispatcher is built, started, and takes a check. *)
Definition tokenless_start : list (Event nat) :=
  [CallStart; CallQueueCheck doc_a 5].

Definition tokenless_start_state : State nat :=
  Eval vm_compute in final tokenless_start (NewParallelChecker None user_u 0).

(** States in which [Finish] waits in [pc.g.Wait()]: prefixes of the
    runs above, up to the call of [Finish]. *)
Definition members_waiting : list (Event nat) := take 30 members_run.

Definition members_waiting_state : State nat :=
  Eval vm_compute in
    final members_waiting (NewParallelChecker None user_u 2).

Definition failing_waiting : list (Event nat) :=
  take 12 failing_run ++ [CallFinish].

Definition failing_waiting_state : State nat :=
  Eval vm_compute in
    final failing_waiting (NewParallelChecker None user_u 1).

Definition idle_waiting : list (Event nat) := take 3 idle_run.

Definition idle_waiting_state : State nat :=
  Eval vm_compute in final idle_waiting (NewParallelChecker None user_u 1).

Definition tokenless_blocked : list (Event nat) := take 2 tokenless_run.

Definition tokenless_blocked_state : State nat :=
  Eval vm_compute in
    final tokenless_blocked (NewParallelChecker None user_u 0).

Definition tokenless_cancelled : list (Event nat) := take 3 tokenless_run.

Definition tokenless_cancelled_state : State nat :=
  Eval vm_compute in
    final tokenless_cancelled (NewParallelChecker None user_u 0).

(** Ceiling 1: the backend call of a fails with "backend down"; its
    worker still holds the only token, so the loop is blocked at line 52
    when the caller's deadline passes, and the [Acquire] fails: the loop
    hands the deadline's error to the group before the worker hands over
    the backend's. *)
Definition deadline_run : list (Event nat) :=
  [CallStart; LoopAcquireOk; CallQueueCheck doc_a 5; LoopRecv 0;
   BackendReturn 0 (Failed (BackendError "backend down"));
   CtxCancel DeadlineExceeded; LoopAcquireErr; LoopReturn;
   WorkerBody 0; WorkerRelease 0; WorkerReturn 0; CallFinish; WaitReturn].

Definition deadline_state : State nat :=
  Eval vm_compute in final deadline_run (NewParallelChecker None user_u 1).

(** Ceiling 2: the backend call of a returns neither a response nor an
    error. *)
Definition nil_response_state : State nat :=
  Eval vm_compute in final [BackendReturn 0 NoResponse] two_in_flight_state.

(** Ceiling 2: [Finish] is called while the caller of [QueueCheck] for c
    is still blocked in its send. *)
Definition blocked_finish : list (Event nat) := two_in_flight ++ [CallFinish].

Definition blocked_finish_state : State nat :=
  Eval vm_compute in final blocked_finish (NewParallelChecker None user_u 2).

(** Ceiling 2: the check of a has answered and its worker has run its
    body. *)
Definition answered : list (Event nat) :=
  [BackendReturn 0 (Responded MEMBER); WorkerBody 0].

Definition answered_state : State nat :=
  Eval vm_compute in final answered two_in_flight_state.

(** Then the worker of a gives its token back and returns. *)
Definition released : list (Event nat) := [WorkerRelease 0; WorkerReturn 0].

Definition released_state : State nat :=
  Eval vm_compute in final released answered_state.

(** Ceiling 1: the check of b has failed and its task has handed the
    error to the group. *)
Definition failed_check : list (Event nat) := take 15 failing_run.

Definition failed_check_state : State nat :=
  Eval vm_compute in final failed_check (NewParallelChecker None user_u 1).

(** The same, and the loop has returned; then a check of c is enqueued. *)
Definition stopped_loop : list (Event nat) := take 17 failing_run.

Definition stopped_loop_state : State nat :=
  Eval vm_compute in final stopped_loop (NewParallelChecker None user_u 1).

Definition stopped_enqueue : list (Event nat) := [CallQueueCheck doc_c 5].

Definition stopped_enqueue_state : State nat :=
  Eval vm_compute in final stopped_enqueue stopped_loop_state.

(** Ceiling 1, no check failed, the caller cancelled: [Finish] waits. *)
Definition cancelled_waiting : list (Event nat) := take 12 cancelled_run.

Definition cancelled_waiting_state : State nat :=
  Eval vm_compute in
    final cancelled_waiting (NewParallelChecker None user_u 1).

(** Ceiling 1: [Finish] waits while the check of a is with the backend;
    the caller cancels and the loop returns, the backend does not. *)
Definition pending_run : list (Event nat) :=
  [CallStart; LoopAcquireOk; CallQueueCheck doc_a 5; LoopRecv 0; CallFinish].

Definition pending_state : State nat :=
  Eval vm_compute in final pending_run (NewParallelChecker None user_u 1).

Definition pending_cancelled : list (Event nat) :=
  [CtxCancel Canceled; LoopAcquireErr; LoopReturn].

Definition pending_cancelled_state : State nat :=
  Eval vm_compute in final pending_cancelled pending_state.



(** After [Finish] returned the error, the caller's deadline passes. *)
Definition late_deadline : list (Event nat) := [CtxCancel DeadlineExceeded].

Definition late_deadline_state : State nat :=
  Eval vm_compute in final late_deadline failing_state.

(** Inversion of one step into the field updates it performs. *)
Ltac unfold_ops :=
  unfold ctx_cancel, Start, QueueCheck, Finish_close, Finish_wait,
    loop_acquire_ok, loop_acquire_err, loop_recv, loop_recv_closed,
    loop_drain_ok, loop_drain_err, loop_return, backend_return, worker_body,
    worker_release, worker_return, sem_acquire, sem_release in *.

Ltac step_inv_at H :=
  unfold step in H;
  destruct (panicked _) eqn:?; [discriminate H|];
  unfold_ops; simpl in H;
  repeat (simplify_option_eq; try case_match; simplify_eq).

Ltac step_inv H :=
  unfold step in H;
  destruct (panicked _) eqn:?; [discriminate H|];
  match type of H with
  | context [match ?e with _ => _ end] => destruct e
  end;
  unfold_ops; simpl in H;
  repeat (simplify_option_eq; try case_match; simplify_eq).

Ltac unfold_aux :=
  unfold record_err, cancel_checkCtx, Finish_result, AddResult, set_phase,
    panic in *.

Ltac step_cases H :=
  step_inv H; unfold_aux; simpl in *; repeat case_match; simplify_eq/=.

Section Properties.

Context {ResolverMeta : Type}.

Local Abbreviation State := (State ResolverMeta).
Local Abbreviation Event := (Event ResolverMeta).
Local Abbreviation Worker := (Worker ResolverMeta).

(** A state the program can be in: an initial state followed by steps. *)
Inductive reachable (s0 : State) : State → Prop :=
  | reach_init : reachable s0 s0
  | reach_step s e s' :
      reachable s0 s → step e s = Some s' → reachable s0 s'.

(** The same with the schedule kept. *)
Inductive trace (s0 : State) : list Event → State → Prop :=
  | trace_nil : trace s0 [] s0
  | trace_snoc evs s e s' :
      trace s0 evs s → step e s = Some s' → trace s0 (evs ++ [e]) s'.

(** Tokens held by workers, and backend calls in progress. *)
Definition holders (ws : list Worker) : nat :=
  sum_list_with (λ w, holds_token (w_phase w)) ws.

Definition in_flight (ws : list Worker) : nat :=
  sum_list_with (λ w, in_call (w_phase w)) ws.

(** Resources the workers have put into the collector so far. *)
Definition inserted_resource (w : Worker) : option ObjectAndRelation :=
  if inserted_phase (w_phase w) then Some (ObjectAndRelation_ (w_req w))
  else None.

Definition inserted_resources (ws : list Worker) : list ObjectAndRelation :=
  omap inserted_resource ws.

(** The resource of a check whose backend call answered [MEMBER]. *)
Definition member_of (w : Worker) : option ObjectAndRelation :=
  match outcome_of (w_phase w) with
  | Some (Responded MEMBER) => Some (ObjectAndRelation_ (w_req w))
  | _ => None
  end.

Definition member_resources (ws : list Worker) : list ObjectAndRelation :=
  omap member_of ws.

(** The error of a check whose backend call failed. *)
Definition failed_of (w : Worker) : option error :=
  match outcome_of (w_phase w) with
  | Some (Failed e) => Some e
  | _ => None
  end.

Definition failed_errors (ws : list Worker) : list error := omap failed_of ws.

(** Errors the workers' tasks handed to errgroup. *)
Definition done_error (w : Worker) : option error :=
  match w_phase w with
  | PDone (Failed e) => Some e
  | _ => None
  end.

Definition done_errors (ws : list Worker) : list error := omap done_error ws.

(** The request [QueueCheck(resource, meta)] builds. *)
Definition request_of (subject0 : ObjectAndRelation)
    (call : ObjectAndRelation * ResolverMeta) :
    DispatchCheckRequest ResolverMeta :=
  Request call.2 call.1 subject0.

Definition requests_of (s : State) :
    list (DispatchCheckRequest ResolverMeta) :=
  request_of (subject s) <$> queued s.

(** Events of a worker up to the release of its token, and its spawn. *)
Definition worker_event (e : Event) : bool :=
  match e with
  | LoopRecv _ | BackendReturn _ _ | WorkerBody _ | WorkerRelease _ => true
  | _ => false
  end.

Definition is_drain_ok (e : Event) : bool :=
  match e with
  | LoopDrainOk => true
  | _ => false
  end.

Definition is_wait_return (e : Event) : bool :=
  match e with
  | WaitReturn => true
  | _ => false
  end.

Definition is_backend_return (e : Event) : bool :=
  match e with
  | BackendReturn _ _ => true
  | _ => false
  end.

(** Steps the goroutines of the group and the waiting [Finish] take on
    their own; the others are the caller's and the backend's. *)
Definition internal (e : Event) : bool :=
  match e with
  | CtxCancel _ | CallStart | CallQueueCheck _ _ | CallFinish
  | BackendReturn _ _ => false
  | _ => true
  end.

Definition work_left (ws : list Worker) : nat :=
  sum_list_with (λ w, phase_rank (w_phase w)) ws.

(** Upper bound on the internal steps left before [Finish] returns. *)
Definition measure (s : State) : nat :=
  work_left (workers s) + loop_rank (loop s) + fin_rank (fin s).

(** [Finish] waits in [pc.g.Wait()], no backend call is pending, and the
    loop's [Acquire] at line 52 can return: the pool has a token, or the
    group's lifetime is done. *)
Definition draining (s : State) : Prop :=
  panicked s = None ∧ fin s = FWait ∧ in_flight (workers s) = 0
  ∧ (1 ≤ maxConcurrent s ∨ is_Some (checkCtx s)).

(** Under every schedule of internal steps from [s], [Finish] returns
    within [measure s] steps, in a state that satisfies [Q]: no such
    schedule is longer, none gets stuck before the return, and one
    reaches it. *)
Definition finish_returns (s : State) (Q : State → Prop) : Prop :=
  (∀ evs' s', forallb internal evs' = true → run evs' s = Some s' →
     length evs' ≤ measure s
     ∧ (returned (fin s') = true → Q s')
     ∧ (returned (fin s') = false →
        ∃ e s'', internal e = true ∧ step e s' = Some s''))
  ∧ (∃ evs' s', forallb internal evs' = true ∧ run evs' s = Some s'
       ∧ returned (fin s') = true).

(** ** Invariants *)

(** Token accounting: every taken token is held by the loop or by a
    worker, and [Release] never finds the pool empty. *)
Definition inv_sem (s : State) : Prop :=
  sem_cur s = loop_held (maxConcurrent s) (loop s) + holders (workers s)
  ∧ sem_cur s ≤ maxConcurrent s
  ∧ panicked s ≠ Some ReleasedMoreThanHeld.

(** The channel is closed exactly when [Finish] was called; nobody stays
    blocked on a closed channel; nothing runs before [Start]. *)
Definition inv_chan (s : State) : Prop :=
  (toCheck_closed s = false ↔ fin s = FIdle)
  ∧ (toCheck_closed s = true → panicked s = None → toCheck_sendq s = [])
  ∧ (loop s = LNotStarted → fin s = FIdle ∧ workers s = []).

(** The collector holds the inserted resources, each once. *)
Definition inv_results (s : State) : Prop :=
  NoDup (results s)
  ∧ ∀ r, r ∈ results s ↔ r ∈ inserted_resources (workers s).

(** [Finish] returned only with every task done, and what it returned is
    what lines 82-86 compute. *)
Definition inv_ret (s : State) : Prop :=
  ∀ c e, fin s = FRet c e →
    loop_done (loop s) = true ∧ forallb is_done (workers s) = true
    ∧ FRet c e = Finish_result s.

(** errgroup keeps the first error; the errors it saw are those of the
    tasks that are done. *)
Definition inv_err (s : State) : Prop :=
  g_err s = head (failures s)
  ∧ failures s ≡ₚ loop_errors (loop s) ++ done_errors (workers s).

(** The loop fails only with the error of the group's lifetime, and that
    lifetime ends only with the caller's, on a first error, or when
    [Wait] returns. *)
Definition inv_ctx (s : State) : Prop :=
  (∀ e, loop s = LExit (Some e) ∨ loop s = LDone (Some e) →
     checkCtx s = Some e)
  ∧ (∀ e, checkCtx s = Some e →
       ctx s = Some e
       ∨ (e = Canceled ∧ (is_Some (g_err s) ∨ returned (fin s) = true)))
  ∧ (is_Some (ctx s) → is_Some (checkCtx s)).

(** The first error is a backend error of a finished worker, or the
    error of the caller's lifetime seen by the loop. *)
Definition inv_first (s : State) : Prop :=
  ∀ e, head (failures s) = Some e →
    e ∈ done_errors (workers s) ∨ (ctx s = Some e ∧ loop s = LDone (Some e)).

(** Every request built by [QueueCheck] is with a worker or still with
    its blocked sender, and nothing else is. *)
Definition inv_reqs (s : State) : Prop :=
  (panicked s = None →
     requests_of s ≡ₚ (w_req <$> workers s) ++ toCheck_sendq s)
  ∧ (w_req <$> workers s) ++ toCheck_sendq s ⊆ requests_of s.

(** While the program runs, no worker holds a nil response: the return
    of one stops the program. *)
Definition inv_nil (s : State) : Prop :=
  panicked s = None →
  ∀ i w, workers s !! i = Some w → outcome_of (w_phase w) ≠ Some NoResponse.

Record inv (s : State) : Prop := MkInv {
  inv_tokens : inv_sem s;
  inv_channel : inv_chan s;
  inv_collector : inv_results s;
  inv_returned : inv_ret s;
  inv_errors : inv_err s;
  inv_lifetime : inv_ctx s;
  inv_first_failure : inv_first s;
  inv_requests : inv_reqs s;
  inv_answers : inv_nil s;
}.

Definition inv_zero (s : State) : Prop :=
  workers s = [] ∧ tokenless_loop (loop s).

(** Once the loop's function returned nil, the schedule has the drain at
    line 73 in it, no worker event after it, and the return of [Wait]
    after it. *)
Definition drained (evs : list Event) (s : State) : Prop :=
  exited_ok (loop s) = true →
  ∃ pre post, evs = pre ++ LoopDrainOk :: post
    ∧ Forall (λ e, worker_event e = false) post
    ∧ (returned (fin s) = true → WaitReturn ∈ post).

(** ** Observations for the further properties *)

(** The panic a step brings about by breaking what the code relies on:
    [QueueCheck] or a second [Finish] after [Finish] closed the channel,
    [Finish] while a [QueueCheck] is blocked in its send, or a backend
    call that returns neither a response nor an error. *)
Definition misuse (e : Event) (s : State) : option Panic :=
  match e with
  | BackendReturn _ NoResponse => Some NilDereference
  | CallQueueCheck _ _ =>
      match fin s with
      | FIdle => None
      | _ => Some SendOnClosedChannel
      end
  | CallFinish =>
      match fin s with
      | FIdle =>
          match toCheck_sendq s with
          | [] => None
          | _ :: _ => Some SendOnClosedChannel
          end
      | _ => Some CloseOfClosedChannel
      end
  | _ => None
  end.

(** The loop has left its [for]: it is at line 73 or has returned. *)
Definition loop_stopped (l : LoopState) : bool :=
  match l with
  | LDrain | LExit _ | LDone _ => true
  | _ => false
  end.


Definition is_recv (e : Event) : bool :=
  match e with
  | LoopRecv _ => true
  | _ => false
  end.

Definition is_body (e : Event) : bool :=
  match e with
  | WorkerBody _ => true
  | _ => false
  end.

(** Worker [w'] is worker [w] later on: the same request, no further from
    its end, the same answer of the backend if [w] had one. *)
Definition advanced (w w' : Worker) : Prop :=
  w_req w' = w_req w
  ∧ phase_rank (w_phase w') ≤ phase_rank (w_phase w)
  ∧ ∀ o, outcome_of (w_phase w) = Some o → outcome_of (w_phase w') = Some o.


(** The group's lifetime is done once a task failed or [Wait] returned. *)
Definition inv_cancel (s : State) : Prop :=
  (is_Some (g_err s) → is_Some (checkCtx s))
  ∧ (returned (fin s) = true → is_Some (checkCtx s)).

(** * Lemmas *)

(** ** Lists *)

Lemma sum_list_with_insert {A} (f : A → nat) (l : list A) i x y :
  l !! i = Some x →
  sum_list_with f (<[i:=y]> l) + f x = sum_list_with f l + f y.
Proof.
  revert i. induction l as [|a l IH]; intros [|i] H; simplify_eq/=; [lia|].
  specialize (IH _ H). lia.
Qed.

Lemma omap_insert_same {A B} (f : A → option B) (l : list A) i x y :
  l !! i = Some x → f y = f x → omap f (<[i:=y]> l) = omap f l.
Proof.
  revert i. induction l as [|a l IH]; intros [|i] H Hf; simplify_eq/=.
  - by rewrite Hf.
  - specialize (IH i H Hf). destruct (f a); by rewrite ?IH.
Qed.

Lemma omap_insert_new {A B} (f : A → option B) (l : list A) i x y r :
  l !! i = Some x → f x = None → f y = Some r →
  omap f (<[i:=y]> l) ≡ₚ r :: omap f l.
Proof.
  revert i. induction l as [|a l IH]; intros [|i] H Hx Hy; simplify_eq/=.
  - by rewrite Hx, Hy.
  - specialize (IH i H Hx Hy). destruct (f a); [|done].
    rewrite IH. apply Permutation_swap.
Qed.

Lemma head_snoc_first {A} (l : list A) (x : A) :
  head (l ++ [x]) = match head l with Some y => Some y | None => Some x end.
Proof. by destruct l. Qed.

Lemma forallb_false_lookup {A} (f : A → bool) (l : list A) :
  forallb f l = false → ∃ i x, l !! i = Some x ∧ f x = false.
Proof.
  induction l as [|a l IH]; simpl; [done|].
  destruct (f a) eqn:Hfa; simpl.
  - intros (i & x & Hi & Hx)%IH. by exists (S i), x.
  - intros _. by exists 0, a.
Qed.

Lemma ONRSet_Add_elem (r r' : ObjectAndRelation) (set : ONRSet) :
  r' ∈ ONRSet_Add r set ↔ r' = r ∨ r' ∈ set.
Proof.
  unfold ONRSet_Add. case_decide as Hin.
  - split; [by right | by intros [->|]].
  - rewrite elem_of_app, list_elem_of_singleton. tauto.
Qed.

Lemma ONRSet_Add_NoDup (r : ObjectAndRelation) (set : ONRSet) :
  NoDup set → NoDup (ONRSet_Add r set).
Proof.
  intros Hnd. unfold ONRSet_Add. case_decide as Hin; [done|].
  apply NoDup_app. split_and!; [done | | apply NoDup_singleton].
  intros x Hx ->%list_elem_of_singleton. done.
Qed.

(** ** Workers *)

Lemma holders_insert (ws : list Worker) i w p :
  ws !! i = Some w →
  holders (<[i:=MkWorker (w_req w) p]> ws) + holds_token (w_phase w)
  = holders ws + holds_token p.
Proof.
  intros H. unfold holders.
  apply (sum_list_with_insert (λ w, holds_token (w_phase w)) _ _ _
           (MkWorker (w_req w) p) H).
Qed.

Lemma in_flight_insert (ws : list Worker) i w p :
  ws !! i = Some w →
  in_flight (<[i:=MkWorker (w_req w) p]> ws) + in_call (w_phase w)
  = in_flight ws + in_call p.
Proof.
  intros H. unfold in_flight.
  apply (sum_list_with_insert (λ w, in_call (w_phase w)) _ _ _
           (MkWorker (w_req w) p) H).
Qed.

Lemma work_left_insert (ws : list Worker) i w p :
  ws !! i = Some w →
  work_left (<[i:=MkWorker (w_req w) p]> ws) + phase_rank (w_phase w)
  = work_left ws + phase_rank p.
Proof.
  intros H. unfold work_left.
  apply (sum_list_with_insert (λ w, phase_rank (w_phase w)) _ _ _
           (MkWorker (w_req w) p) H).
Qed.

Lemma holders_lookup (ws : list Worker) i w :
  ws !! i = Some w → holds_token (w_phase w) ≤ holders ws.
Proof.
  intros H. unfold holders.
  apply (sum_list_with_in w (λ w, holds_token (w_phase w))).
  eapply list_elem_of_lookup_2, H.
Qed.

Lemma holders_snoc (ws : list Worker) w :
  holders (ws ++ [w]) = holders ws + holds_token (w_phase w).
Proof. unfold holders. rewrite sum_list_with_app. simpl. lia. Qed.

Lemma holders_zero_phase (ws : list Worker) i w :
  holders ws = 0 → ws !! i = Some w → holds_token (w_phase w) = 0.
Proof. intros H0 Hi. pose proof (holders_lookup _ _ _ Hi). lia. Qed.

Lemma in_flight_le_holders (ws : list Worker) : in_flight ws ≤ holders ws.
Proof.
  induction ws as [|w ws IH]; simpl; [done|].
  unfold in_flight, holders in *. simpl. destruct (w_phase w); simpl; lia.
Qed.

Lemma in_flight_zero_phase (ws : list Worker) i w :
  in_flight ws = 0 → ws !! i = Some w → w_phase w ≠ PCall.
Proof.
  intros H0 Hi Hp.
  assert (in_call (w_phase w) ≤ in_flight ws) as Hle.
  { unfold in_flight.
    apply (sum_list_with_in w (λ w, in_call (w_phase w))).
    eapply list_elem_of_lookup_2, Hi. }
  rewrite Hp in Hle. simpl in Hle. lia.
Qed.

Lemma forallb_is_done_lookup (ws : list Worker) i w :
  forallb is_done ws = true → ws !! i = Some w → is_done w = true.
Proof.
  revert i. induction ws as [|a ws IH]; intros [|i] H Hi; simplify_eq/=.
  - by apply andb_true_iff in H as [? _].
  - apply andb_true_iff in H as [_ ?]. eauto.
Qed.

Lemma all_done_holders (ws : list Worker) :
  forallb is_done ws = true → holders ws = 0.
Proof.
  induction ws as [|w ws IH]; simpl; [done|].
  intros [Hw Hws]%andb_true_iff. unfold holders in *. simpl.
  rewrite IH by done. unfold is_done in Hw. by destruct (w_phase w).
Qed.

Lemma all_done_outcomes (ws : list Worker) :
  forallb is_done ws = true →
  inserted_resources ws = member_resources ws
  ∧ done_errors ws = failed_errors ws.
Proof.
  induction ws as [|w ws IH]; simpl; [done|].
  intros [Hw Hws]%andb_true_iff. destruct (IH Hws) as [IH1 IH2].
  unfold inserted_resources, member_resources, done_errors, failed_errors in *.
  simpl. rewrite IH1, IH2.
  unfold inserted_resource, member_of, done_error, failed_of, is_done in *.
  destruct (w_phase w) as [|o|o|o|[[]| |]]; done.
Qed.

Lemma fmap_w_req_insert (ws : list Worker) i w p :
  ws !! i = Some w →
  w_req <$> <[i:=MkWorker (w_req w) p]> ws = w_req <$> ws.
Proof.
  intros H. rewrite list_fmap_insert. simpl.
  apply list_insert_id. by rewrite list_lookup_fmap, H.
Qed.

(** ** Schedules *)

Lemma run_app (evs1 evs2 : list Event) (s : State) :
  run (evs1 ++ evs2) s = run evs1 s ≫= run evs2.
Proof.
  revert s. induction evs1 as [|e evs1 IH]; intros s; simpl; [done|].
  destruct (step e s); simpl; [apply IH | done].
Qed.

Lemma run_split (evs1 evs2 : list Event) (s s' : State) :
  run (evs1 ++ evs2) s = Some s' →
  ∃ s1, run evs1 s = Some s1 ∧ run evs2 s1 = Some s'.
Proof.
  rewrite run_app. destruct (run evs1 s) as [s1|]; simpl; [eauto|done].
Qed.

Lemma trace_run (s0 : State) evs s : trace s0 evs s ↔ run evs s0 = Some s.
Proof.
  split.
  - induction 1 as [|evs s e s' _ IH Hstep]; [done|].
    rewrite run_app, IH. simpl. by rewrite Hstep.
  - revert s. induction evs as [|e evs IH] using rev_ind; intros s Hrun.
    + simpl in Hrun. injection Hrun as <-. constructor.
    + rewrite run_app in Hrun.
      destruct (run evs s0) as [s1|] eqn:E1; simpl in Hrun; [|done].
      destruct (step e s1) as [s2|] eqn:E2; [|done].
      injection Hrun as <-. econstructor; eauto.
Qed.

Lemma trace_reachable (s0 : State) evs s : trace s0 evs s → reachable s0 s.
Proof. induction 1; econstructor; eauto. Qed.

Lemma run_reachable (s0 : State) evs s : run evs s0 = Some s → reachable s0 s.
Proof. intros H. eapply trace_reachable, trace_run, H. Qed.

Lemma panicked_stuck (e : Event) (s : State) :
  is_Some (panicked s) → step e s = None.
Proof. intros [p Hp]. unfold step. by rewrite Hp. Qed.

Lemma internal_not_backend (e : Event) :
  internal e = true → is_backend_return e = false.
Proof. by destruct e. Qed.

(** ** Each invariant is kept by every step *)

Lemma step_config (e : Event) (s s' : State) :
  step e s = Some s' →
  maxConcurrent s' = maxConcurrent s ∧ subject s' = subject s.
Proof. intros H. step_cases H; done. Qed.

Lemma inv_sem_step (e : Event) (s s' : State) :
  step e s = Some s' → inv_sem s → inv_sem s'.
Proof.
  intros H (Hs & Hc & Hp). unfold inv_sem.
  step_cases H.
  all: try (rewrite holders_snoc; simpl).
  all: try match goal with
    | Hw : workers ?s !! ?i = Some ?w
      |- context [<[?i:=MkWorker _ ?p]> (workers ?s)] =>
        pose proof (holders_insert _ _ _ p Hw)
    end.
  all: try match goal with
    | Hw : workers ?s !! ?i = Some ?w |- _ =>
        pose proof (holders_lookup _ _ _ Hw)
    end.
  all: repeat match goal with
    | Hl : loop _ = _ |- _ => rewrite Hl in *; clear Hl
    | Hl : w_phase _ = _ |- _ => rewrite Hl in *; clear Hl
    end; simpl in *.
  all: split_and!; try first [done | lia | congruence].
Qed.

Lemma inv_chan_step (e : Event) (s s' : State) :
  step e s = Some s' → inv_chan s → inv_chan s'.
Proof.
  intros H (Hf & Hq & Hl). unfold inv_chan.
  step_cases H.
  all: try (split_and!; first [done | intuition congruence]).
  1: { split_and!; [done | | done].
       intros Hc _.
       match goal with H : toCheck_sendq _ !! _ = Some _ |- _ =>
         rewrite Hq in H by done; done end. }
  all: split_and!; [done | intuition congruence | ].
  all: intros Hl'; destruct (Hl Hl') as [_ Hw].
  all: match goal with H : workers _ !! _ = Some _ |- _ =>
         rewrite Hw in H; done end.
Qed.

Lemma inv_results_step (e : Event) (s s' : State) :
  step e s = Some s' → inv_results s → inv_results s'.
Proof.
  intros H (Hnd & Hr). unfold inv_results.
  step_cases H.
  all: try done.
  all: split; [by auto using ONRSet_Add_NoDup|]; intros r.
  all: unfold inserted_resources.
  1: { rewrite omap_app. simpl. by rewrite app_nil_r. }
  all: try (erewrite omap_insert_same; [done | eassumption |];
            unfold inserted_resource; simpl;
            match goal with H : w_phase _ = _ |- _ => rewrite H end;
            simpl; repeat case_match; done).
  rewrite ONRSet_Add_elem, Hr.
  erewrite (omap_insert_new inserted_resource); [| eassumption | |].
  - by rewrite elem_of_cons.
  - unfold inserted_resource.
    match goal with H : w_phase _ = _ |- _ => by rewrite H end.
  - done.
Qed.

Lemma inv_ret_step (e : Event) (s s' : State) :
  step e s = Some s' → inv_ret s → inv_ret s'.
Proof.
  intros H Hret. unfold inv_ret in *. intros c r.
  step_cases H.
  all: try (intros Hf; specialize (Hret _ _ Hf) as (Hl & Hw & Hres)).
  all: try done.
  all: try match goal with
       | H : loop _ = _ |- _ => rewrite H in *; done end.
  all: try match goal with
       | H : workers _ !! _ = Some ?w, H2 : w_phase ?w = _ |- _ =>
           pose proof (forallb_is_done_lookup _ _ _ Hw H) as Hd;
           unfold is_done in Hd; rewrite H2 in Hd; done
       end.
  all: intros [= <- <-].
  all: match goal with H : _ && _ = true |- _ =>
         apply andb_true_iff in H as [??] end; done.
Qed.

Lemma inv_err_step (e : Event) (s s' : State) :
  step e s = Some s' → inv_err s → inv_err s'.
Proof.
  intros H (Hg & Hf). unfold inv_err in *.
  step_cases H.
  all: try done.
  all: repeat match goal with
       | H : loop _ = _ |- _ => rewrite H in *; clear H end; simpl in *.
  all: try done.
  all: unfold done_errors in *.
  all: try (split; [done|]; erewrite omap_insert_same; [done | eassumption |];
            unfold done_error; simpl;
            match goal with H : w_phase _ = _ |- _ => by rewrite H end).
  all: rewrite ?head_snoc_first, <- ?Hg.
  all: match goal with
       | H : g_err _ = _ |- _ => rewrite ?H in *
       | _ => idtac
       end.
  all: split; [done|].
  all: rewrite ?omap_app; simpl; rewrite ?app_nil_r; try done.
  all: try (rewrite Hf; by rewrite (comm (++)) ).
  all: destruct o as [m|err|]; simplify_eq/=.
  all: erewrite (omap_insert_new done_error); [| eassumption | | done].
  all: try (unfold done_error;
            match goal with H : w_phase _ = _ |- _ => by rewrite H end).
  all: rewrite Hf, <- (assoc (++)); f_equiv; symmetry.
  all: apply Permutation_cons_append.
Qed.

Lemma inv_ctx_step (e : Event) (s s' : State) :
  step e s = Some s' → inv_chan s → inv_ctx s → inv_ctx s'.
Proof.
  intros H. step_cases H.
  all: intros (Hc1 & Hc2 & Hc3) (Hl & Hx & Hi); unfold inv_ctx; simpl.
  all: try (split_and!; assumption).
  all: split_and!; try assumption.
  all: try (intros ? [?|?]; simplify_eq; eauto; done).
  all: try (intros ? ?; simplify_eq; eauto; done).
  all: try (intros _; eauto; done).
  all: try (intros e' He';
            assert (checkCtx s = Some e') by
              (apply Hl; destruct He' as [He'|He']; simplify_eq; eauto);
            congruence).
  all: try (intros e' He'; simplify_eq; right; split; eauto; done).
  all: try (assert (fin s = FIdle) as Hidle by (by apply Hc1)).
  all: intros e' He'; destruct (Hx _ He') as [Hc|(-> & [Hg|Hr])].
  all: try (by left).
  all: try congruence.
  all: try (right; split; [done|]; left; eauto; done).
  all: try (right; split; [done|]; right; done).
  all: try (rewrite Hidle in Hr; done).
Qed.

Lemma inv_first_step (e : Event) (s s' : State) :
  step e s = Some s' → inv_ctx s → inv_err s → inv_ret s →
  inv_first s → inv_first s'.
Proof.
  intros H. step_cases H.
  all: intros (Hl & Hx & Hi) (Hg & Hf) Hret Hfirst; unfold inv_first; simpl.
  all: try assumption.
  all: unfold done_errors in *.
  all: try (erewrite omap_insert_same; [done | eassumption |];
            unfold done_error; simpl;
            match goal with H : w_phase _ = _ |- _ => by rewrite H end).
  all: try (intros y Hy; destruct (Hfirst y Hy) as [?|[? ?]];
            [by left | congruence]).
  1: { rewrite omap_app. simpl. rewrite app_nil_r.
       intros y Hy. destruct (Hfirst y Hy) as [?|[? ?]]; [by left | congruence]. }
  all: intros e1; rewrite head_snoc_first.
  all: destruct (head (failures s)) as [y|] eqn:Hhd.
  all: intros [= <-].
  (* an earlier failure stays the first one *)
  all: try (destruct (Hfirst y Hhd) as [?|[? ?]]; [by left | congruence]).
  (* the loop fails first: its lifetime was done, which needs a cause *)
  all: try (right; split; [|done];
            assert (checkCtx s = Some e) as Hdone by (apply Hl; eauto);
            destruct (Hx _ Hdone) as [?|(_ & [[? Hs]|Hr])]; [done|congruence|];
            exfalso;
            destruct (fin s) as [| |c r] eqn:Hfin; try done;
            destruct (Hret c r Hfin) as (Hld & _);
            match goal with H : loop _ = _ |- _ => rewrite H in Hld end;
            done).
  all: destruct o as [m|err|]; simplify_eq/=.
  all: erewrite (omap_insert_new done_error); [| eassumption | | done].
  all: try (unfold done_error;
            match goal with H : w_phase _ = _ |- _ => by rewrite H end).
  all: rewrite elem_of_cons; auto.
  all: destruct (Hfirst _ Hhd) as [?|[? ?]]; auto.
Qed.

Lemma inv_reqs_step (e : Event) (s s' : State) :
  step e s = Some s' → inv_reqs s → inv_reqs s'.
Proof.
  intros H. step_cases H.
  all: intros (Hp & Hs); unfold inv_reqs, requests_of in *; simpl.
  all: try (split; assumption).
  all: try (erewrite fmap_w_req_insert by eassumption; split; assumption).
  all: try (erewrite fmap_w_req_insert by eassumption; split; [done|assumption]).
  all: try (split; [done|]; try assumption).
  - rewrite fmap_app. intros x Hx. apply elem_of_app. left. by apply Hs.
  - rewrite fmap_app. simpl. unfold request_of at 2. simpl.
    match goal with H : panicked s = None |- _ => specialize (Hp H) end.
    assert (∀ A (l1 l2 l3 : list A), l1 ++ l2 ++ l3 = (l1 ++ l2) ++ l3) as Ha
      by (intros; by rewrite (assoc (++))).
    rewrite Ha.
    split; [intros _; by rewrite Hp|].
    intros x Hx. rewrite Hp. done.
  - match goal with H : panicked s = None |- _ => specialize (Hp H) end.
    match goal with
    | H : toCheck_sendq s !! ?i = Some ?req |- _ =>
        assert (request_of (subject s) <$> queued s
                ≡ₚ (w_req <$> workers s ++ [MkWorker req PCall]) ++
                   delete i (toCheck_sendq s)) as HP
    end.
    { rewrite Hp, fmap_app. simpl. rewrite <- (assoc (++)). simpl.
      f_equiv. by apply delete_Permutation. }
    split; [done|]. intros x Hx. by rewrite HP.
Qed.

Lemma inv_nil_step (e : Event) (s s' : State) :
  step e s = Some s' → inv_nil s → inv_nil s'.
Proof.
  intros H. step_cases H.
  all: intros Hn; unfold inv_nil in *; simpl; try done.
  all: intros Hp0 i' w' Hi'; simpl in *.
  all: try (by eapply Hn).
  all: try match goal with
       | Hj : workers _ !! ?j = Some ?w0 |- _ =>
           destruct (decide (i' = j)) as [->|Hne];
           [ rewrite list_lookup_insert_eq in Hi' by (by eapply lookup_lt_Some);
             simplify_eq; simpl;
             try (match goal with H2 : w_phase _ = _ |- _ =>
                    specialize (Hn Hp0 _ _ Hj); rewrite H2 in Hn end);
             simpl in *; congruence
           | rewrite list_lookup_insert_ne in Hi' by done; by eapply Hn ]
       end.
  apply lookup_app_Some in Hi' as [?|[_ Hi']]; [by eapply Hn|].
  apply list_lookup_singleton_Some in Hi' as [_ <-]. done.
Qed.

Lemma inv_zero_step (e : Event) (s s' : State) :
  step e s = Some s' → maxConcurrent s = 0 → inv_zero s → inv_zero s'.
Proof.
  intros H. step_cases H.
  all: intros HN [Hw Hl]; unfold inv_zero; simpl.
  all: try match goal with H : loop _ = _ |- _ => rewrite H in * end.
  all: try match goal with H : workers _ !! _ = _ |- _ => rewrite Hw in H end.
  all: try done.
  all: lia.
Qed.

(** ** Reachable states *)

Lemma inv_init ctx0 subject0 N :
  inv (NewParallelChecker (ResolverMeta:=ResolverMeta) ctx0 subject0 N).
Proof.
  split.
  - split_and!; simpl; [done | lia | done].
  - split_and!; simpl; done.
  - split; simpl; [constructor | done].
  - intros c e; simpl; done.
  - split; simpl; done.
  - split_and!; simpl; [intros e [?|?]; done | intros e ->; by left | done].
  - intros e; simpl; done.
  - split; simpl; [done|]. unfold requests_of. simpl. by intros x Hx.
  - intros _ i w; simpl; done.
Qed.

Lemma inv_step (e : Event) (s s' : State) :
  step e s = Some s' → inv s → inv s'.
Proof.
  intros H [].
  split; eauto using inv_sem_step, inv_chan_step, inv_results_step,
    inv_ret_step, inv_err_step, inv_ctx_step, inv_first_step, inv_reqs_step,
    inv_nil_step.
Qed.

Lemma reachable_inv ctx0 subject0 N (s : State) :
  reachable (NewParallelChecker ctx0 subject0 N) s → inv s.
Proof. induction 1; eauto using inv_init, inv_step. Qed.

Lemma reachable_config ctx0 subject0 N (s : State) :
  reachable (NewParallelChecker ctx0 subject0 N) s →
  maxConcurrent s = N ∧ subject s = subject0.
Proof.
  induction 1 as [|s e s' _ [IH1 IH2] Hstep]; [done|].
  apply step_config in Hstep as [-> ->]. done.
Qed.

Lemma reachable_zero ctx0 subject0 (s : State) :
  reachable (NewParallelChecker ctx0 subject0 0) s → inv_zero s.
Proof.
  intros Hr. pose proof (reachable_config _ _ _ _ Hr) as [HN _].
  revert HN. induction Hr as [|s e s' Hr IH Hstep]; intros HN; [done|].
  pose proof (step_config _ _ _ Hstep) as [HN' _].
  eapply inv_zero_step; eauto; [congruence | apply IH; congruence].
Qed.

Lemma run_inv ctx0 subject0 N evs (s : State) :
  run evs (NewParallelChecker ctx0 subject0 N) = Some s →
  inv s ∧ maxConcurrent s = N ∧ subject s = subject0.
Proof.
  intros Hr%run_reachable. split; [by eapply reachable_inv|].
  by eapply reachable_config.
Qed.

Lemma run_zero ctx0 subject0 evs (s : State) :
  run evs (NewParallelChecker ctx0 subject0 0) = Some s →
  workers s = [] ∧ tokenless_loop (loop s).
Proof. intros Hr%run_reachable. by eapply reachable_zero. Qed.

(** ** What a step leaves alone *)

Lemma step_outcomes (e : Event) (s s' : State) :
  step e s = Some s' → is_backend_return e = false →
  member_resources (workers s') = member_resources (workers s)
  ∧ failed_errors (workers s') = failed_errors (workers s).
Proof.
  intros H. step_cases H.
  all: intros Hbr; try done.
  all: unfold member_resources, failed_errors.
  all: try (rewrite !omap_app; simpl; by rewrite !app_nil_r).
  all: split.
  all: (erewrite omap_insert_same; [done | eassumption |]).
  all: unfold member_of, failed_of; simpl.
  all: match goal with H : w_phase _ = _ |- _ => by rewrite H end.
Qed.

Lemma step_frame (e : Event) (s s' : State) :
  step e s = Some s' → internal e = true →
  queued s' = queued s ∧ ctx s' = ctx s.
Proof. intros H. step_cases H; done. Qed.

Lemma step_quiet (e : Event) (s s' : State) :
  step e s = Some s' → worker_event e = false →
  results s' = results s ∧ length (workers s') = length (workers s).
Proof.
  intros H. step_cases H.
  all: intros Hq; try done.
  all: by rewrite length_insert.
Qed.

Lemma run_internal (evs : list Event) (s s' : State) :
  run evs s = Some s' → forallb internal evs = true →
  member_resources (workers s') = member_resources (workers s)
  ∧ failed_errors (workers s') = failed_errors (workers s)
  ∧ queued s' = queued s ∧ ctx s' = ctx s.
Proof.
  revert s. induction evs as [|e evs IH]; intros s Hrun Hall; simpl in *.
  - by simplify_eq.
  - apply andb_true_iff in Hall as [Hint Hall].
    destruct (step e s) as [s1|] eqn:Hstep; [|done].
    destruct (IH _ Hrun Hall) as (-> & -> & -> & ->).
    destruct (step_outcomes _ _ _ Hstep (internal_not_backend _ Hint))
      as [-> ->].
    destruct (step_frame _ _ _ Hstep Hint) as [-> ->]. done.
Qed.

Lemma run_quiet (evs : list Event) (s s' : State) :
  run evs s = Some s' → Forall (λ e, worker_event e = false) evs →
  results s' = results s ∧ length (workers s') = length (workers s)
  ∧ member_resources (workers s') = member_resources (workers s).
Proof.
  revert s. induction evs as [|e evs IH]; intros s Hrun Hall; simpl in *.
  - by simplify_eq.
  - apply Forall_cons in Hall as [Hq Hall].
    destruct (step e s) as [s1|] eqn:Hstep; [|done].
    destruct (IH _ Hrun Hall) as (-> & -> & ->).
    destruct (step_quiet _ _ _ Hstep Hq) as [-> ->].
    destruct (step_outcomes _ _ _ Hstep) as [-> _]; [by destruct e|done].
Qed.

(** ** The drain comes before the return *)

Lemma step_after_drain (e : Event) (s s' : State) :
  inv s → exited_ok (loop s) = true → step e s = Some s' →
  worker_event e = false ∧ is_drain_ok e = false ∧ exited_ok (loop s') = true
  ∧ (returned (fin s') = true →
       returned (fin s) = true ∨ is_wait_return e = true).
Proof.
  intros [(Hsem & Hcap & _) _ _ _ _ _ _ _ _] Hex H.
  assert (holders (workers s) = 0) as Hh.
  { destruct (loop s) as [| | | |[]|[]]; simplify_eq/=; lia. }
  step_cases H.
  all: try match goal with H : loop _ = _ |- _ =>
             try rewrite H in Hex; try rewrite H end.
  all: try done.
  all: try (split_and!; auto; done).
  all: match goal with H : workers _ !! _ = Some ?w, H2 : w_phase ?w = _ |- _ =>
         pose proof (holders_zero_phase _ _ _ Hh H) as Hz;
         rewrite H2 in Hz; done end.
Qed.

Lemma step_to_drain (e : Event) (s s' : State) :
  inv s → exited_ok (loop s) = false → step e s = Some s' →
  exited_ok (loop s') = true →
  is_drain_ok e = true ∧ returned (fin s') = false.
Proof.
  intros [_ _ _ Hret _ _ _ _ _] Hex H.
  step_cases H.
  all: try match goal with H : loop _ = _ |- _ =>
             try rewrite H in Hex; try rewrite H end.
  all: try done.
  all: try congruence.
  intros _. split; [done|].
  destruct (fin s) as [| |c r] eqn:Hfin; try done.
  destruct (Hret c r Hfin) as (Hld & _).
  match goal with H : loop _ = _ |- _ => rewrite H in Hld end. done.
Qed.

Lemma trace_drained ctx0 subject0 N evs (s : State) :
  trace (NewParallelChecker ctx0 subject0 N) evs s → drained evs s.
Proof.
  induction 1 as [|evs s e s' Htr IH Hstep]; [done|].
  pose proof (reachable_inv _ _ _ _ (trace_reachable _ _ _ Htr)) as Hinv.
  intros Hex'. destruct (exited_ok (loop s)) eqn:Hex.
  - destruct (step_after_drain _ _ _ Hinv Hex Hstep) as (Hw & _ & _ & Hr).
    destruct (IH Hex) as (pre & post & -> & Hq & Hwait).
    exists pre, (post ++ [e]). split_and!.
    + by rewrite <- (assoc (++)).
    + apply Forall_app. split; [done|]. by constructor.
    + intros Hret. apply elem_of_app.
      destruct (Hr Hret) as [?|He]; [left; auto|].
      right. destruct e; try done. apply list_elem_of_singleton. done.
  - destruct (step_to_drain _ _ _ Hinv Hex Hstep Hex') as (Hd & Hr).
    exists evs, []. split_and!.
    + destruct e; done.
    + constructor.
    + rewrite Hr. done.
Qed.

(** ** [Finish] returns *)

(** While [Finish] waits, every internal step brings the return closer and
    keeps the program running. *)
Lemma step_draining (e : Event) (s s' : State) :
  inv s → draining s → internal e = true → step e s = Some s' →
  measure s' < measure s ∧ (draining s' ∨ returned (fin s') = true)
  ∧ panicked s' = None.
Proof.
  intros [(Hsem & Hcap & _) (Hc1 & Hc2 & Hc3) _ _ _ _ _ _ Hnil].
  intros (Hp & Hfin & Hfl & HN) Hint H.
  assert (toCheck_closed s = true) as Hcl.
  { destruct (toCheck_closed s); [done|]. destruct Hc1 as [Hc1 _].
    rewrite Hc1 in Hfin; done. }
  specialize (Hc2 Hcl Hp). specialize (Hnil Hp).
  step_cases H.
  all: try (exfalso;
            match goal with
            | Hw : workers _ !! _ = Some ?w, H2 : w_phase ?w = PRet NoResponse
              |- _ => specialize (Hnil _ _ Hw); rewrite H2 in Hnil; done
            end).
  all: unfold measure, draining; simpl.
  all: try match goal with
    | Hw : workers ?s !! ?i = Some ?w
      |- context [<[?i:=MkWorker _ ?p]> (workers ?s)] =>
        pose proof (holders_insert _ _ _ p Hw);
        pose proof (in_flight_insert _ _ _ p Hw);
        pose proof (work_left_insert _ _ _ p Hw)
    end.
  all: try match goal with
    | Hw : workers ?s !! ?i = Some ?w |- _ =>
        pose proof (holders_lookup _ _ _ Hw)
    end.
  all: repeat match goal with
    | Hl : loop _ = _ |- _ => rewrite Hl in *; clear Hl
    | Hl : w_phase _ = _ |- _ => rewrite Hl in *; clear Hl
    | Hl : fin _ = _ |- _ => rewrite Hl in *; clear Hl
    | Hl : checkCtx _ = _ |- _ => rewrite Hl in *; clear Hl
    end; simpl in *.
  all: try match goal with H : [] !! _ = Some _ |- _ => done end.
  all: try (split_and!; [lia | auto | done]; left; split_and!; eauto; lia).
  all: try (exfalso; lia).
  match goal with H : toCheck_sendq _ !! _ = Some _ |- _ =>
    rewrite Hc2 in H; done end.
Qed.

(** While [Finish] waits, some goroutine can always move.  At an
    [Acquire] the step chosen is the failing one when the lifetime is
    done, the succeeding one otherwise. *)
Lemma draining_enabled (s : State) :
  inv s → draining s → ∃ e s', internal e = true ∧ step e s = Some s'.
Proof.
  intros [(Hsem & Hcap & _) (Hc1 & Hc2 & Hc3) _ _ _ _ _ _ _].
  intros (Hp & Hfin & Hfl & HN).
  assert (toCheck_closed s = true) as Hcl.
  { destruct (toCheck_closed s); [done|]. destruct Hc1 as [Hc1 _].
    rewrite Hc1 in Hfin; done. }
  specialize (Hc2 Hcl Hp).
  destruct (forallb is_done (workers s)) eqn:Hall.
  - pose proof (all_done_holders _ Hall) as Hh.
    destruct (loop s) as [| | | |err|err] eqn:Hloop; simpl in *.
    + destruct (Hc3 eq_refl) as [? _]. congruence.
    + destruct (checkCtx s) as [x|] eqn:Hx.
      * exists LoopAcquireErr. unfold step, loop_acquire_err.
        rewrite Hp, Hloop, Hx. simpl. eauto.
      * destruct HN as [?|[? ?]]; [|done].
        exists LoopAcquireOk. unfold step, loop_acquire_ok, sem_acquire.
        rewrite Hp, Hloop. simpl. rewrite decide_True by lia. eauto.
    + exists LoopRecvClosed. unfold step, loop_recv_closed, sem_release.
      rewrite Hp, Hloop, Hcl, Hc2. rewrite decide_True by lia. eauto.
    + destruct (checkCtx s) as [x|] eqn:Hx.
      * exists LoopDrainErr. unfold step, loop_drain_err.
        rewrite Hp, Hloop, Hx. simpl. eauto.
      * exists LoopDrainOk. unfold step, loop_drain_ok, sem_acquire.
        rewrite Hp, Hloop. simpl. rewrite decide_True by lia. eauto.
    + exists LoopReturn. unfold step, loop_return.
      rewrite Hp, Hloop. eauto.
    + exists WaitReturn. unfold step, Finish_wait.
      rewrite Hp, Hfin, Hloop, Hall. simpl. eauto.
  - apply forallb_false_lookup in Hall as (i & w & Hi & Hw).
    pose proof (in_flight_zero_phase _ _ _ Hfl Hi) as Hcall.
    pose proof (holders_lookup _ _ _ Hi) as Hh.
    unfold is_done in Hw.
    destruct (w_phase w) as [|o|o|o|o] eqn:Hph; try done.
    + exists (WorkerBody i). unfold step, worker_body.
      rewrite Hp, Hi. simpl. rewrite Hph.
      destruct o as [m|err|]; [case_decide| |]; eauto.
    + exists (WorkerRelease i). unfold step, worker_release.
      rewrite Hp, Hi. simpl. rewrite Hph.
      destruct (sem_release (sem_cur s) 1); eauto.
    + exists (WorkerReturn i). unfold step, worker_return.
      rewrite Hp, Hi. simpl. rewrite Hph. eauto.
Qed.

(** From a draining state some schedule of internal steps reaches the
    return of [Finish]. *)
Lemma draining_returns (s : State) n :
  measure s ≤ n → inv s → draining s →
  ∃ evs s', run evs s = Some s' ∧ returned (fin s') = true
    ∧ panicked s' = None ∧ forallb internal evs = true.
Proof.
  revert s. induction n as [|n IH]; intros s Hm Hinv Hdr.
  - destruct (draining_enabled s Hinv Hdr) as (e & s' & Hint & Hstep).
    destruct (step_draining _ _ _ Hinv Hdr Hint Hstep) as (Hlt & _). lia.
  - destruct (draining_enabled s Hinv Hdr) as (e & s' & Hint & Hstep).
    destruct (step_draining _ _ _ Hinv Hdr Hint Hstep) as (Hlt & Hnext & Hp').
    destruct Hnext as [Hdr'|Hret].
    + destruct (IH s') as (evs & s'' & Hrun & Hret & Hp'' & Hall);
        [lia | by eapply inv_step | done |].
      exists (e :: evs), s''. simpl. rewrite Hstep, Hint. done.
    + exists [e], s'. simpl. rewrite Hstep, Hint. done.
Qed.

Lemma returned_stuck (e : Event) (s : State) :
  inv s → returned (fin s) = true → internal e = true → step e s = None.
Proof.
  intros [_ _ _ Hret _ _ _ _ _] Hr Hint.
  destruct (fin s) as [| |c r] eqn:Hfin; try done.
  destruct (Hret c r Hfin) as (Hld & Hwd & _).
  destruct (step e s) as [s'|] eqn:H; [exfalso|done].
  step_cases H.
  all: try match goal with H : loop _ = _ |- _ => rewrite H in Hld; done end.
  all: try match goal with
       | H : workers _ !! _ = Some ?w, H2 : w_phase ?w = _ |- _ =>
           pose proof (forallb_is_done_lookup _ _ _ Hwd H) as Hd;
           unfold is_done in Hd; rewrite H2 in Hd; done
       end.
Qed.

(** No schedule of internal steps from a draining state is longer than
    the measure, and it ends draining or returned. *)
Lemma run_draining (evs : list Event) (s s' : State) :
  inv s → draining s → forallb internal evs = true →
  run evs s = Some s' →
  length evs ≤ measure s ∧ (draining s' ∨ returned (fin s') = true).
Proof.
  revert s. induction evs as [|e evs IH]; intros s Hinv Hdr Hall Hrun.
  - simpl in *. simplify_eq. split; [lia | by left].
  - simpl in *. apply andb_true_iff in Hall as [Hint Hall].
    destruct (step e s) as [s1|] eqn:Hstep; [|done].
    destruct (step_draining _ _ _ Hinv Hdr Hint Hstep) as (Hlt & Hnext & _).
    destruct Hnext as [Hdr'|Hret].
    + destruct (IH s1 (inv_step _ _ _ Hstep Hinv) Hdr' Hall Hrun) as [? ?].
      split; [lia | done].
    + destruct evs as [|e2 evs]; simpl in *.
      * simplify_eq. split; [lia | by right].
      * apply andb_true_iff in Hall as [Hint2 _].
        rewrite (returned_stuck e2 s1) in Hrun;
          [done | by eapply inv_step | done | done].
Qed.

Lemma finish_returns_intro ctx0 subject0 N evs (s : State)
    (Q : State → Prop) :
  run evs (NewParallelChecker ctx0 subject0 N) = Some s → draining s →
  (∀ evs' s', forallb internal evs' = true → run evs' s = Some s' →
     run (evs ++ evs') (NewParallelChecker ctx0 subject0 N) = Some s' →
     returned (fin s') = true → Q s') →
  finish_returns s Q.
Proof.
  intros Hrun Hdr HQ. destruct (run_inv _ _ _ _ _ Hrun) as (Hinv & _).
  split.
  - intros evs' s' Hall Hrun'.
    assert (run (evs ++ evs') (NewParallelChecker ctx0 subject0 N) = Some s')
      as Hrun2 by (rewrite run_app, Hrun; done).
    destruct (run_draining _ _ _ Hinv Hdr Hall Hrun') as [Hlen Hnext].
    split_and!; [done | by eauto |].
    intros Hnot. destruct Hnext as [Hdr'|Hret]; [|congruence].
    destruct (run_inv _ _ _ _ _ Hrun2) as (Hinv' & _).
    by apply draining_enabled.
  - destruct (draining_returns s (measure s))
      as (evs' & s' & Hrun' & Hret & Hp & Hall); [done..|].
    eauto.
Qed.

(** ** What [Finish] returns *)

(** The return value read off the final state. *)
Lemma returned_result (s : State) c r :
  inv s → fin s = FRet c r →
  loop_done (loop s) = true ∧ forallb is_done (workers s) = true
  ∧ ((c = None ∧ r = head (failures s) ∧ is_Some r)
     ∨ (c = Some (results s) ∧ r = None ∧ failures s = [])).
Proof.
  intros [_ _ _ Hret [Hg Hf] _ _ _ _] Hfin.
  destruct (Hret c r Hfin) as (Hl & Hw & Hres). split_and!; [done..|].
  unfold Finish_result in Hres. rewrite Hg in Hres.
  destruct (failures s) as [|e fs]; simplify_eq/=; eauto.
Qed.

(** When some check failed, [Finish] hands back the first recorded
    failure and no collector. *)
Lemma first_error_returned ctx0 subject0 N evs (s : State) e0 c r :
  run evs (NewParallelChecker ctx0 subject0 N) = Some s →
  e0 ∈ failed_errors (workers s) → fin s = FRet c r →
  c = None ∧ ∃ e, r = Some e ∧ head (failures s) = Some e
    ∧ (e ∈ failed_errors (workers s) ∨ ctx s = Some e).
Proof.
  intros Hrun He0 Hfin. destruct (run_inv _ _ _ _ _ Hrun) as (Hinv & _).
  destruct (returned_result _ _ _ Hinv Hfin) as (_ & Hall & Hres).
  destruct (all_done_outcomes _ Hall) as [_ Hde].
  destruct Hinv as [_ _ _ _ [_ Hf] _ Hfirst _ _].
  destruct Hres as [(-> & -> & [e He])|(_ & _ & Hnil)].
  - split; [done|]. exists e. split_and!; [done..|].
    destruct (Hfirst e He) as [?|[? _]]; [left|by right]. by rewrite <- Hde.
  - exfalso. rewrite Hnil in Hf. symmetry in Hf.
    apply Permutation_nil_r in Hf. apply app_eq_nil in Hf as [_ Hf].
    rewrite Hde in Hf. rewrite Hf in He0. by apply elem_of_nil in He0.
Qed.

(** A collector that [Finish] returns holds exactly the resources of
    the checks that answered [MEMBER], each once. *)
Lemma collector_returned ctx0 subject0 N evs (s : State) coll r :
  run evs (NewParallelChecker ctx0 subject0 N) = Some s →
  fin s = FRet (Some coll) r →
  r = None ∧ coll = results s ∧ NoDup coll
  ∧ (∀ x, x ∈ coll ↔ x ∈ member_resources (workers s))
  ∧ failed_errors (workers s) = [] ∧ failures s = [].
Proof.
  intros Hrun Hfin. destruct (run_inv _ _ _ _ _ Hrun) as (Hinv & _).
  destruct (returned_result _ _ _ Hinv Hfin) as (_ & Hall & Hres).
  destruct (all_done_outcomes _ Hall) as [Hin Hde].
  destruct Hinv as [_ _ [Hnd Hr] _ [_ Hf] _ _ _ _].
  destruct Hres as [(? & _)|(Hc & -> & Hnil)]; [done|].
  injection Hc as ->. split_and!; try done.
  - intros x. by rewrite Hr, Hin.
  - rewrite Hnil in Hf. symmetry in Hf.
    apply Permutation_nil_r in Hf. apply app_eq_nil in Hf as [_ Hf].
    by rewrite <- Hde.
Qed.

(** With no failed check and a live lifetime, [Finish] cannot return an
    error. *)
Lemma success_returned ctx0 subject0 N evs (s : State) c r :
  run evs (NewParallelChecker ctx0 subject0 N) = Some s →
  failed_errors (workers s) = [] → ctx s = None → fin s = FRet c r →
  r = None ∧ c = Some (results s).
Proof.
  intros Hrun Hok Hctx Hfin. destruct (run_inv _ _ _ _ _ Hrun) as (Hinv & _).
  destruct (returned_result _ _ _ Hinv Hfin) as (_ & Hall & Hres).
  destruct (all_done_outcomes _ Hall) as [_ Hde].
  destruct Hinv as [_ _ _ _ _ _ Hfirst _ _].
  destruct Hres as [(-> & -> & [e He])|(-> & -> & _)]; [exfalso|done].
  destruct (Hfirst e He) as [Hin|[? _]]; [|congruence].
  rewrite Hde, Hok in Hin. by apply elem_of_nil in Hin.
Qed.

(** Without tokens, [Finish] can only hand back the error of the caller's
    lifetime. *)
Lemma zero_returned ctx0 subject0 evs (s : State) c r :
  run evs (NewParallelChecker ctx0 subject0 0) = Some s →
  fin s = FRet c r → ∃ e, ctx s = Some e ∧ c = None ∧ r = Some e.
Proof.
  intros Hrun Hfin. destruct (run_inv _ _ _ _ _ Hrun) as (Hinv & _).
  destruct (run_zero _ _ _ _ Hrun) as [Hws Hl].
  destruct (returned_result _ _ _ Hinv Hfin) as (Hld & _ & Hres).
  destruct Hinv as [_ _ _ _ [_ Hf] _ Hfirst _ _].
  destruct (loop s) as [| | | |?|[e|]] eqn:Hloop; try done.
  rewrite Hws in Hf. simpl in Hf.
  apply Permutation_singleton_r in Hf.
  destruct Hres as [(-> & -> & _)|(_ & _ & Hnil)]; [|congruence].
  destruct (Hfirst e) as [Hin|[? _]]; [by rewrite Hf | |].
  - rewrite Hws in Hin. by apply elem_of_nil in Hin.
  - exists e. rewrite Hf. done.
Qed.

(** * The claims *)

(** C1: at no instant are more than maxConcurrent backend Check calls
    executing.  In every state the program can reach, the calls in
    progress are at most the tokens held by workers, every taken token is
    held by the loop or by exactly one worker, and at most [N] tokens are
    taken; the loop receives a request only while it holds one token,
    which passes to the spawned worker; a worker keeps its token across
    the return of its backend call and gives back exactly that one when
    it finishes, which never panics.  And it does give it back: while the
    program runs, a worker whose backend call has returned can run its
    body, which leaves the pool alone and brings it to its deferred
    [Release]; a worker at its deferred [Release] can run it, which does
    not panic, frees exactly one token, and cannot be run a second time.
    The bound holds for every [N], the values from 1 on included. *)
Theorem C1_concurrency_bound ctx0 subject0 N evs (s : State) :
  run evs (NewParallelChecker ctx0 subject0 N) = Some s →
  in_flight (workers s) ≤ holders (workers s)
  ∧ sem_cur s = loop_held N (loop s) + holders (workers s)
  ∧ sem_cur s ≤ N
  ∧ in_flight (workers s) ≤ N
  ∧ (∀ i s', step (LoopRecv i) s = Some s' →
       loop_held N (loop s) = 1 ∧ loop_held N (loop s') = 0
       ∧ holders (workers s') = holders (workers s) + 1
       ∧ in_flight (workers s') ≤ N)
  ∧ (∀ i o s', step (BackendReturn i o) s = Some s' →
       holders (workers s') = holders (workers s))
  ∧ (∀ i s', step (WorkerRelease i) s = Some s' →
       panicked s' = None ∧ sem_cur s' + 1 = sem_cur s
       ∧ holders (workers s') + 1 = holders (workers s))
  ∧ (panicked s = None →
       ∀ i w o, workers s !! i = Some w → w_phase w = PRet o →
       ∃ s', step (WorkerBody i) s = Some s' ∧ panicked s' = None
         ∧ workers s' !! i = Some (MkWorker (w_req w) (PDefer o))
         ∧ sem_cur s' = sem_cur s
         ∧ holders (workers s') = holders (workers s))
  ∧ (panicked s = None →
       ∀ i w o, workers s !! i = Some w → w_phase w = PDefer o →
       ∃ s', step (WorkerRelease i) s = Some s' ∧ panicked s' = None
         ∧ workers s' !! i = Some (MkWorker (w_req w) (PExit o))
         ∧ sem_cur s' + 1 = sem_cur s
         ∧ holders (workers s') + 1 = holders (workers s)
         ∧ step (WorkerRelease i) s' = None).
Proof.
  intros Hrun.
  destruct (run_inv _ _ _ _ _ Hrun) as ([Hsem _ _ _ _ _ _ _ Hnil] & HN & _).
  destruct Hsem as (Hsem & Hcap & _). rewrite HN in *.
  pose proof (in_flight_le_holders (workers s)) as Hfl.
  split_and!; [done | done | done | lia | | | | |].
  - intros i s' Hstep.
    assert (run (evs ++ [LoopRecv i]) (NewParallelChecker ctx0 subject0 N)
            = Some s') as Hrun'.
    { rewrite run_app, Hrun. simpl. by rewrite Hstep. }
    destruct (run_inv _ _ _ _ _ Hrun')
      as ([(Hsem' & Hcap' & _) _ _ _ _ _ _ _ _] & HN' & _).
    pose proof (in_flight_le_holders (workers s')) as Hfl'.
    rewrite HN' in *.
    step_inv_at Hstep. simpl in *.
    rewrite holders_snoc in *. simpl in *. split_and!; [done | done | lia | lia].
  - intros i o s' Hstep. step_inv_at Hstep; unfold_aux; simpl.
    all: match goal with
    | Hw : workers ?s !! ?i = Some ?w
      |- context [<[?i:=MkWorker _ ?p]> (workers ?s)] =>
        pose proof (holders_insert _ _ _ p Hw) as Hh
    end.
    all: try match goal with H : w_phase _ = _ |- _ => rewrite H in * end.
    all: simpl in *; lia.
  - intros i s' Hstep. step_inv_at Hstep; unfold_aux; simpl.
    all: match goal with
      | Hw : workers ?s !! ?i = Some ?w |- _ =>
          pose proof (holders_lookup _ _ _ Hw) as Hl
      end.
    all: try match goal with
      | Hw : workers ?s !! ?i = Some ?w
        |- context [<[?i:=MkWorker _ ?p]> (workers ?s)] =>
          pose proof (holders_insert _ _ _ p Hw) as Hh
      end.
    all: try match goal with H : w_phase _ = _ |- _ => rewrite H in * end.
    all: simpl in *.
    + split_and!; [done | lia | lia].
    + lia.
  - intros Hp i w o Hi Hph.
    pose proof (Hnil Hp _ _ Hi) as Hno. rewrite Hph in Hno. simpl in Hno.
    pose proof (holders_insert _ _ _ (PDefer o) Hi) as Hh.
    rewrite Hph in Hh. simpl in Hh.
    assert (<[i:=MkWorker (w_req w) (PDefer o)]> (workers s) !! i
            = Some (MkWorker (w_req w) (PDefer o))) as Hl
      by (apply list_lookup_insert_eq; by eapply lookup_lt_Some).
    unfold step, worker_body. rewrite Hp, Hi. simpl. rewrite Hph.
    destruct o as [m|err|]; [case_decide| |done].
    all: eexists; split; [done|]; unfold_aux; simpl.
    all: split_and!; [done | done | done | lia].
  - intros Hp i w o Hi Hph.
    pose proof (holders_lookup _ _ _ Hi) as Hge.
    pose proof (holders_insert _ _ _ (PExit o) Hi) as Hh.
    rewrite Hph in Hge, Hh. simpl in Hge, Hh.
    assert (<[i:=MkWorker (w_req w) (PExit o)]> (workers s) !! i
            = Some (MkWorker (w_req w) (PExit o))) as Hl
      by (apply list_lookup_insert_eq; by eapply lookup_lt_Some).
    unfold step at 1, worker_release, sem_release. rewrite Hp, Hi. simpl.
    rewrite Hph. rewrite decide_True by lia.
    eexists. split; [done|]. unfold_aux. simpl.
    split_and!; [done | done | lia | lia |].
    unfold step, worker_release. simpl. rewrite Hp, Hl. done.
Qed.

(** C2, as amended: in a run in which the backend call of some
    dispatched check returned an error, what [Finish] returns is no
    collector together with the first error a task of the group handed
    back.  While the caller's lifetime is not cancelled that is the error
    of a failed check, the first one handed back if several failed, and
    with one failing error it is that error; when the lifetime is
    cancelled it is the error of a failed check or the error of the
    lifetime, which the loop may hand back first.  And [Finish] does
    return it: once it waits and no backend call is pending, every
    schedule of the remaining steps ends in that return.  In no run does
    [Finish] return a collector together with an error, or a collector
    when some check failed. *)
Theorem C2_first_error_wins ctx0 subject0 N evs (s : State) :
  run evs (NewParallelChecker ctx0 subject0 N) = Some s →
  (∀ c r, fin s = FRet c r →
     (c = None ∧ is_Some r)
     ∨ (c = Some (results s) ∧ r = None ∧ failed_errors (workers s) = []))
  ∧ (∀ e0, e0 ∈ failed_errors (workers s) →
     (∀ c r, fin s = FRet c r →
        c = None ∧ ∃ e, r = Some e ∧ head (failures s) = Some e
          ∧ (e ∈ failed_errors (workers s) ∨ ctx s = Some e)
          ∧ (ctx s = None → e ∈ failed_errors (workers s))
          ∧ ((∀ e', e' ∈ failed_errors (workers s) → e' = e0) →
             ctx s = None → e = e0))
     ∧ (draining s →
        finish_returns s (λ s', ∃ e,
          fin s' = FRet None (Some e) ∧ head (failures s') = Some e
          ∧ (e ∈ failed_errors (workers s) ∨ ctx s = Some e)
          ∧ (ctx s = None → e ∈ failed_errors (workers s))))).
Proof.
  intros Hrun. split.
  - intros c r Hfin. destruct (run_inv _ _ _ _ _ Hrun) as (Hinv & _).
    destruct (returned_result _ _ _ Hinv Hfin)
      as (_ & _ & [(-> & _ & Hr)|(-> & -> & _)]); [by left|].
    right. destruct (collector_returned _ _ _ _ _ _ _ Hrun Hfin)
      as (_ & _ & _ & _ & Hnone & _). done.
  - intros e0 He0. split.
    + intros c r Hfin.
      destruct (first_error_returned _ _ _ _ _ _ _ _ Hrun He0 Hfin)
        as (-> & e & -> & Hhd & Hor).
      split; [done|]. exists e. split_and!; [done..| |].
      * intros Hctx. destruct Hor as [?|?]; [done | congruence].
      * intros Hone Hctx. destruct Hor as [?|?]; [auto | congruence].
    + intros Hdr. eapply finish_returns_intro; [done..|].
      intros evs' s' Hall Hrun' Hrun2 Hret.
      destruct (run_internal _ _ _ Hrun' Hall) as (_ & Hfe & _ & Hctx).
      destruct (fin s') as [| |c r] eqn:Hfin; try done.
      rewrite <- Hfe in He0.
      destruct (first_error_returned _ _ _ _ _ _ _ _ Hrun2 He0 Hfin)
        as (-> & e & -> & Hhd & Hor).
      exists e. rewrite <- Hfe, <- Hctx. split_and!; [done..|].
      intros Hnone. destruct Hor as [?|?]; [done | congruence].
Qed.

(** C3, as amended: a collector that [Finish] returns comes with no
    error, and holds exactly the distinct resources of the checks whose
    backend outcome was MEMBER (a worker inserts its resource if and only
    if the outcome is MEMBER): each once, none else, none when no check
    answered MEMBER, and equal up to order to the collector of any other
    run with the same MEMBER resources.  When no check failed and the
    caller's lifetime is not cancelled, [Finish] returns no error, and it
    does return such a collector: once it waits, no backend call is
    pending, and the pool has a token, every schedule of the remaining
    steps ends in that return. *)
Theorem C3_members_collected ctx0 subject0 N evs (s : State) :
  run evs (NewParallelChecker ctx0 subject0 N) = Some s →
  (∀ coll r, fin s = FRet (Some coll) r →
     r = None ∧ NoDup coll
     ∧ (∀ x, x ∈ coll ↔ x ∈ member_resources (workers s))
     ∧ (member_resources (workers s) = [] → coll = [])
     ∧ (∀ ctx1 evs1 (s1 : State) coll1 r1,
          run evs1 (NewParallelChecker ctx1 subject0 N) = Some s1 →
          fin s1 = FRet (Some coll1) r1 →
          member_resources (workers s1) ≡ₚ member_resources (workers s) →
          coll1 ≡ₚ coll))
  ∧ (failed_errors (workers s) = [] → ctx s = None →
     (∀ c r, fin s = FRet c r → r = None ∧ c = Some (results s))
     ∧ (draining s →
        finish_returns s (λ s', ∃ coll,
          fin s' = FRet (Some coll) None ∧ NoDup coll
          ∧ ∀ x, x ∈ coll ↔ x ∈ member_resources (workers s)))).
Proof.
  intros Hrun. split.
  - intros coll r Hfin.
    destruct (collector_returned _ _ _ _ _ _ _ Hrun Hfin)
      as (-> & _ & Hnd & Hel & _).
    split_and!; [done..| |].
    + intros Hnil. destruct coll as [|x coll]; [done|].
      specialize (Hel x). rewrite Hnil in Hel.
      exfalso. eapply elem_of_nil, Hel. by left.
    + intros ctx1 evs1 s1 coll1 r1 Hrun1 Hfin1 Hperm.
      destruct (collector_returned _ _ _ _ _ _ _ Hrun1 Hfin1)
        as (_ & _ & Hnd1 & Hel1 & _).
      apply NoDup_Permutation; [done..|].
      intros x. by rewrite Hel1, Hel, Hperm.
  - intros Hok Hctx. split.
    + intros c r Hfin. by eapply success_returned.
    + intros Hdr. eapply finish_returns_intro; [done..|].
      intros evs' s' Hall Hrun' Hrun2 Hret.
      destruct (run_internal _ _ _ Hrun' Hall) as (Hmem & Hfe & _ & Hctx').
      destruct (fin s') as [| |c r] eqn:Hfin; try done.
      destruct (success_returned _ _ _ _ _ c r Hrun2) as [-> ->];
        [congruence.. | done |].
      destruct (collector_returned _ _ _ _ _ _ _ Hrun2 Hfin)
        as (_ & _ & Hnd & Hel & _).
      exists (results s'). split_and!; [done..|].
      intros x. by rewrite Hel, Hmem.
Qed.

(** C4: [Finish] returns success only after the loop re-acquired the
    full ceiling of N tokens, which happens only after every spawned
    worker completed, inserted and released.  A schedule that ends with
    [Finish] returning a collector contains the drain of line 73 and,
    after it, the return of [Wait] and no spawn, backend return,
    insertion or release; in the state the drain starts from no token is
    taken, the workers are all those of the final state, and the
    collector already is the one returned, with every MEMBER resource in
    it; at the return the loop holds all N tokens and every worker is
    done. *)
Theorem C4_finish_after_drain ctx0 subject0 N evs (s : State) coll :
  run evs (NewParallelChecker ctx0 subject0 N) = Some s →
  fin s = FRet (Some coll) None →
  ∃ pre post s1,
    evs = pre ++ LoopDrainOk :: post
    ∧ WaitReturn ∈ post
    ∧ Forall (λ e, worker_event e = false) post
    ∧ run pre (NewParallelChecker ctx0 subject0 N) = Some s1
    ∧ run (LoopDrainOk :: post) s1 = Some s
    ∧ sem_cur s1 = 0 ∧ holders (workers s1) = 0
    ∧ length (workers s1) = length (workers s)
    ∧ results s1 = coll
    ∧ (∀ x, x ∈ member_resources (workers s) → x ∈ results s1)
    ∧ loop s = LDone None ∧ sem_cur s = N
    ∧ forallb is_done (workers s) = true.
Proof.
  intros Hrun Hfin.
  destruct (run_inv _ _ _ _ _ Hrun) as (Hinv & HN & _).
  destruct (collector_returned _ _ _ _ _ _ _ Hrun Hfin)
    as (_ & Hcoll & _ & Hel & _ & Hnil).
  destruct (returned_result _ _ _ Hinv Hfin) as (Hld & Hall & _).
  assert (loop s = LDone None) as Hloop.
  { destruct Hinv as [_ _ _ _ [_ Hf] _ _ _ _].
    destruct (loop s) as [| | | |?|[e|]]; try done.
    rewrite Hnil in Hf. simpl in Hf.
    by apply Permutation_nil_cons in Hf. }
  pose proof (trace_drained ctx0 subject0 N evs s) as Hdr.
  destruct Hdr as (pre & post & -> & Hq & Hw);
    [by apply trace_run | by rewrite Hloop |].
  apply run_split in Hrun as Hsplit. destruct Hsplit as (s1 & Hpre & Hpost).
  destruct (run_inv _ _ _ _ _ Hpre)
    as ([(Hsem1 & Hcap1 & _) _ _ _ _ _ _ _ _] & HN1 & _).
  simpl in Hpost. destruct (step LoopDrainOk s1) as [s2|] eqn:Hstep; [|done].
  destruct (run_quiet _ _ _ Hpost Hq) as (Hres & Hlen & Hmem).
  assert (sem_cur s1 = 0 ∧ results s2 = results s1
          ∧ workers s2 = workers s1) as (Hcur & Hres2 & Hws2).
  { step_inv_at Hstep; simpl in *. split_and!; [lia | done | done]. }
  exists pre, post, s1. split_and!; try done.
  - apply Hw. by rewrite Hfin.
  - simpl. by rewrite Hstep.
  - lia.
  - congruence.
  - congruence.
  - intros x Hx. rewrite <- Hres2, <- Hres, <- Hcoll. by apply Hel.
  - destruct Hinv as [(Hsem & _) _ _ _ _ _ _ _ _].
    rewrite Hsem, Hloop, (all_done_holders _ Hall), HN. simpl. lia.
Qed.

(** C5, as amended: with zero checks ever enqueued no worker exists and
    a collector that [Finish] returns is empty; when the caller's
    lifetime is not cancelled, what [Finish] returns is the empty
    collector and a nil error; and when moreover maxConcurrent is at
    least 1, [Finish], called after [Start], does return that: every
    schedule of the remaining steps ends in that return. *)
Theorem C5_no_checks ctx0 subject0 N evs (s : State) :
  run evs (NewParallelChecker ctx0 subject0 N) = Some s →
  queued s = [] →
  workers s = []
  ∧ (∀ c r, fin s = FRet c r →
       (∀ coll, c = Some coll → coll = [])
       ∧ (ctx s = None → c = Some [] ∧ r = None))
  ∧ (1 ≤ N → ctx s = None → panicked s = None → fin s = FWait →
     finish_returns s (λ s', fin s' = FRet (Some []) None)).
Proof.
  intros Hrun Hq. destruct (run_inv _ _ _ _ _ Hrun) as (Hinv & HN & _).
  assert (workers s = []) as Hws.
  { destruct Hinv as [_ _ _ _ _ _ _ [_ Hsub] _].
    unfold requests_of in Hsub. rewrite Hq in Hsub. simpl in Hsub.
    destruct (workers s) as [|w ws]; [done|].
    exfalso. eapply elem_of_nil, Hsub. simpl. by left. }
  assert (∀ evs1 (s1 : State) c r,
      run evs1 (NewParallelChecker ctx0 subject0 N) = Some s1 →
      workers s1 = [] → fin s1 = FRet c r →
      (∀ coll, c = Some coll → coll = [])
      ∧ (ctx s1 = None → c = Some [] ∧ r = None)) as Hsafe.
  { intros evs1 s1 c r Hrun1 Hws1 Hfin.
    destruct (run_inv _ _ _ _ _ Hrun1) as (Hinv1 & _).
    assert (results s1 = []) as Hres.
    { destruct Hinv1 as [_ _ [_ Hr] _ _ _ _ _ _].
      destruct (results s1) as [|x xs]; [done|].
      exfalso. specialize (Hr x). rewrite Hws1 in Hr. simpl in Hr.
      eapply elem_of_nil, Hr. by left. }
    split.
    - intros coll ->.
      destruct (collector_returned _ _ _ _ _ _ _ Hrun1 Hfin) as (_ & -> & _).
      done.
    - intros Hctx.
      destruct (success_returned _ _ _ _ _ c r Hrun1) as [-> ->]; try done.
      + by rewrite Hws1.
      + by rewrite Hres. }
  split_and!; [done | by eauto |].
  intros HN1 Hctx Hp Hfin.
  assert (draining s) as Hdr.
  { split_and!; [done | done | by rewrite Hws | left; lia]. }
  eapply finish_returns_intro; [done..|].
  intros evs' s' Hall Hrun' Hrun2 Hret.
  destruct (run_internal _ _ _ Hrun' Hall) as (_ & _ & Hq' & Hctx').
  destruct (fin s') as [| |c r] eqn:Hfin'; try done.
  assert (workers s' = []) as Hws'.
  { destruct (run_inv _ _ _ _ _ Hrun2) as ([_ _ _ _ _ _ _ [_ Hsub] _] & _).
    unfold requests_of in Hsub. rewrite Hq', Hq in Hsub. simpl in Hsub.
    destruct (workers s') as [|w ws]; [done|].
    exfalso. eapply elem_of_nil, Hsub. simpl. by left. }
  destruct (Hsafe _ _ _ _ Hrun2 Hws' Hfin') as [_ Hok].
  destruct Hok as [-> ->]; [congruence | done].
Qed.

(** C6: the request delivered to the backend carries exactly the
    metadata and the resource of one [QueueCheck] call, and the subject
    fixed at construction.  The request of every worker is the one built
    from the arguments of a [QueueCheck] call and the constructor's
    subject; the requests with workers or with blocked senders are, one
    for one, those of the calls made; [QueueCheck] blocks on exactly the
    request of its arguments, and the loop hands the worker the request
    it received.  The metadata is an abstract type throughout: no step
    can look into it. *)
Theorem C6_request_passthrough ctx0 subject0 N evs (s : State) :
  run evs (NewParallelChecker ctx0 subject0 N) = Some s →
  subject s = subject0
  ∧ (∀ i w, workers s !! i = Some w →
       Subject (w_req w) = subject0
       ∧ ∃ resource meta, (resource, meta) ∈ queued s
           ∧ w_req w = Request meta resource subject0)
  ∧ (panicked s = None →
       request_of subject0 <$> queued s
       ≡ₚ (w_req <$> workers s) ++ toCheck_sendq s)
  ∧ (∀ resource meta s',
       step (CallQueueCheck resource meta) s = Some s' →
       queued s' = queued s ++ [(resource, meta)]
       ∧ (panicked s' = None →
          toCheck_sendq s'
          = toCheck_sendq s ++ [Request meta resource subject0]))
  ∧ (∀ i s', step (LoopRecv i) s = Some s' →
       ∃ req, toCheck_sendq s !! i = Some req
         ∧ workers s' = workers s ++ [MkWorker req PCall])
  ∧ (∀ i o s' w, step (BackendReturn i o) s = Some s' →
       workers s !! i = Some w →
       workers s' !! i = Some (MkWorker (w_req w) (PRet o))).
Proof.
  intros Hrun. destruct (run_inv _ _ _ _ _ Hrun) as (Hinv & _ & Hsub).
  destruct Hinv as [_ _ _ _ _ _ _ [Hperm Hincl] _].
  unfold requests_of in *. rewrite Hsub in *.
  split_and!; [done | | done | | |].
  - intros i w Hi.
    assert (w_req w ∈ request_of subject0 <$> queued s) as Hin.
    { apply Hincl, elem_of_app. left.
      apply list_elem_of_fmap. exists w. split; [done|].
      by eapply list_elem_of_lookup_2. }
    apply list_elem_of_fmap in Hin as ([resource meta] & Heq & Hin).
    unfold request_of in Heq. simpl in Heq. rewrite Heq. simpl.
    split; [done|]. eauto.
  - intros resource meta s' Hstep. step_inv_at Hstep; unfold_aux; simpl; done.
  - intros i s' Hstep. step_inv_at Hstep; simpl. eauto.
  - intros i o s' w Hstep Hi. step_inv_at Hstep; unfold_aux; simpl.
    all: apply list_lookup_insert_eq; by eapply lookup_lt_Some.
Qed.

(** C7, as amended: construction never rejects.  For every maxConcurrent,
    0 included, [NewParallelChecker] returns a dispatcher in its initial
    state with that ceiling, which [Start] accepts and which keeps the
    ceiling for good; with a ceiling of 0 the dispatcher is of no use: no
    check is ever dispatched and [Finish] never returns a collector. *)
Theorem C7_zero_ceiling_accepted ctx0 subject0 N evs (s : State) :
  run evs (NewParallelChecker ctx0 subject0 N) = Some s →
  (let pc : State := NewParallelChecker ctx0 subject0 N in
   panicked pc = None ∧ maxConcurrent pc = N ∧ subject pc = subject0
   ∧ results pc = [] ∧ fin pc = FIdle ∧ is_Some (step CallStart pc))
  ∧ maxConcurrent s = N
  ∧ (N = 0 → workers s = [] ∧ in_flight (workers s) = 0
       ∧ ∀ c r, fin s = FRet c r → c = None ∧ is_Some r).
Proof.
  intros Hrun. destruct (run_inv _ _ _ _ _ Hrun) as (_ & HN & _).
  split_and!; [simpl; split_and!; eauto | done |].
  intros ->. destruct (run_zero _ _ _ _ Hrun) as [Hws _].
  split_and!; [done | by rewrite Hws |].
  intros c r Hfin.
  destruct (zero_returned _ _ _ _ _ _ Hrun Hfin) as (e & _ & -> & ->). eauto.
Qed.

(** C8: enqueueing after the completion signal fails fast.  Once
    [Finish] has been called, a [QueueCheck] call panics with a send on
    the closed channel: the check goes nowhere (no sender is added, no
    worker is spawned), the collector, the token pool and the state of
    [Finish] are untouched, and the program takes no further step. *)
Theorem C8_enqueue_after_finish_panics ctx0 subject0 N evs (s : State)
    resource meta :
  run evs (NewParallelChecker ctx0 subject0 N) = Some s →
  panicked s = None → fin s ≠ FIdle →
  ∃ s', step (CallQueueCheck resource meta) s = Some s'
    ∧ panicked s' = Some SendOnClosedChannel
    ∧ toCheck_sendq s' = toCheck_sendq s ∧ workers s' = workers s
    ∧ results s' = results s ∧ fin s' = fin s ∧ sem_cur s' = sem_cur s
    ∧ (∀ e, step e s' = None).
Proof.
  intros Hrun Hp Hfin. destruct (run_inv _ _ _ _ _ Hrun) as (Hinv & _).
  destruct Hinv as [_ (Hc1 & _) _ _ _ _ _ _ _].
  assert (toCheck_closed s = true) as Hcl.
  { destruct (toCheck_closed s); [done|]. by destruct Hfin; apply Hc1. }
  eexists. unfold step, QueueCheck. rewrite Hp. simpl. rewrite Hcl.
  split_and!; done.
Qed.

(** C9: [Finish] is single-shot.  Once [Finish] has been called, whatever
    was enqueued, a further [Finish] call panics with the close of the
    closed channel, and the program takes no further step. *)
Theorem C9_second_finish_panics ctx0 subject0 N evs (s : State) :
  run evs (NewParallelChecker ctx0 subject0 N) = Some s →
  panicked s = None → fin s ≠ FIdle →
  ∃ s', step CallFinish s = Some s'
    ∧ panicked s' = Some CloseOfClosedChannel
    ∧ fin s' = fin s ∧ results s' = results s
    ∧ (∀ e, step e s' = None).
Proof.
  intros Hrun Hp Hfin. destruct (run_inv _ _ _ _ _ Hrun) as (Hinv & _).
  destruct Hinv as [_ (Hc1 & _ & Hc3) _ _ _ _ _ _ _].
  assert (toCheck_closed s = true) as Hcl.
  { destruct (toCheck_closed s); [done|]. by destruct Hfin; apply Hc1. }
  eexists. unfold step, Finish_close. rewrite Hp, Hcl.
  destruct (loop s) eqn:Hloop.
  { destruct (Hc3 eq_refl) as [? _]. done. }
  all: split_and!; try done.
  all: intros e; by apply panicked_stuck.
Qed.

(** C10: with maxConcurrent = 0 the loop's first token acquisition never
    succeeds, so no check is ever dispatched; [Finish] blocks while the
    caller's lifetime is live (no goroutine of the group can move), and
    what it returns is the lifetime's error and no collector, which it
    does return once the lifetime is cancelled: every schedule of the
    remaining steps ends in that return. *)
Theorem C10_zero_ceiling_blocks ctx0 subject0 evs (s : State) :
  run evs (NewParallelChecker ctx0 subject0 0) = Some s →
  step LoopAcquireOk s = None
  ∧ workers s = []
  ∧ (∀ c r, fin s = FRet c r → ∃ e, ctx s = Some e ∧ c = None ∧ r = Some e)
  ∧ (fin s = FWait → ctx s = None →
       ∀ e, internal e = true → step e s = None)
  ∧ (fin s = FWait → panicked s = None → ∀ e0, ctx s = Some e0 →
       finish_returns s (λ s', fin s' = FRet None (Some e0))).
Proof.
  intros Hrun. destruct (run_inv _ _ _ _ _ Hrun) as (Hinv & HN & _).
  destruct (run_zero _ _ _ _ Hrun) as [Hws Hl].
  assert (step LoopAcquireOk s = None) as Hacq.
  { unfold step, loop_acquire_ok, sem_acquire.
    destruct (panicked s); [done|]. destruct (loop s); try done.
    rewrite HN. simpl. rewrite decide_False by lia. done. }
  split_and!; [done | done | | |].
  - intros c r Hfin. by eapply zero_returned.
  - intros Hfin Hctx e Hint.
    destruct Hinv as [_ (_ & _ & Hc3) _ _ [Hg Hf] (Hle & Hx & _) Hfirst _ _].
    assert (failures s = []) as Hnil.
    { destruct (failures s) as [|z fs] eqn:Hfs; [done|exfalso].
      destruct (Hfirst z) as [Hin|[? _]]; [by rewrite Hfs| |congruence].
      rewrite Hws in Hin. by apply elem_of_nil in Hin. }
    rewrite Hnil in Hg, Hf. simpl in Hg.
    assert (checkCtx s = None) as Hcc.
    { destruct (checkCtx s) as [x|] eqn:Hcc; [exfalso|done].
      destruct (Hx x eq_refl) as [?|(_ & [[y Hy]|Hr])]; [congruence..|].
      by rewrite Hfin in Hr. }
    assert (loop s = LAcquire) as Hloop.
    { destruct (loop s) as [| | | |[z|]|[z|]] eqn:Hloop; try done.
      - destruct (Hc3 eq_refl) as [? _]. congruence.
      - specialize (Hle z (or_introl eq_refl)). congruence.
      - simpl in Hf. by apply Permutation_nil_cons in Hf. }
    destruct e; try done; unfold step; destruct (panicked s); try done.
    all: unfold_ops; rewrite ?Hloop, ?Hcc, ?Hws, ?Hfin; simpl; try done.
  - intros Hfin Hp e0 Hctx.
    assert (draining s) as Hdr.
    { split_and!; [done | done | by rewrite Hws |].
      right. destruct Hinv as [_ _ _ _ _ (_ & _ & Hi) _ _ _].
      apply Hi. by rewrite Hctx. }
    eapply finish_returns_intro; [done..|].
    intros evs' s' Hall Hrun' Hrun2 Hret.
    destruct (run_internal _ _ _ Hrun' Hall) as (_ & _ & _ & Hctx').
    destruct (fin s') as [| |c r] eqn:Hfin'; try done.
    destruct (zero_returned _ _ _ _ _ _ Hrun2 Hfin') as (e & He & -> & ->).
    congruence.
Qed.

(** * Further properties of the dispatcher *)

(** ** Panics *)

(** X1: the program panics only when its caller or its backend breaks
    what the code relies on.  Whatever step is taken from a state the
    program can reach, it ends panicked exactly when the step is a
    [QueueCheck] or a second [Finish] after [Finish] closed the channel, a
    [Finish] while a [QueueCheck] is blocked in its send, or the return
    of a backend call with neither a response nor an error, and with the
    panic of that send, close, or read of the nil response at line 67.
    No other step of the loop, of a worker or of the backend panics: in
    particular no [sem.Release] ever gives back more than is held. *)
Theorem panics_are_misuse ctx0 subject0 N evs (s s' : State) e :
  run evs (NewParallelChecker ctx0 subject0 N) = Some s →
  step e s = Some s' →
  panicked s' = misuse e s.
Proof.
  intros Hrun H. destruct (run_inv _ _ _ _ _ Hrun) as (Hinv & _).
  pose proof (inv_step _ _ _ H Hinv) as [(_ & _ & Hrel) _ _ _ _ _ _ _ _].
  destruct Hinv as [_ (Hc1 & Hc2 & Hc3) _ _ _ _ _ _ Hnil].
  assert (toCheck_closed s = false ↔ fin s = FIdle) as Hc by done.
  clear Hc1.
  step_cases H.
  all: simpl in *; try done.
  all: try (exfalso;
            match goal with
            | Hp : panicked ?s = None, Hw : workers ?s !! _ = Some ?w,
              H2 : w_phase ?w = PRet NoResponse |- _ =>
                specialize (Hnil Hp _ _ Hw); rewrite H2 in Hnil; done
            end).
  all: try (destruct (fin s); by intuition congruence).
  all: try match goal with H : toCheck_sendq _ = _ |- _ => rewrite H end.
  all: try (destruct (fin s); by intuition congruence).
Qed.

(** ** Once the loop has stopped *)

Lemma step_stopped (e : Event) (s s' : State) :
  loop_stopped (loop s) = true → step e s = Some s' →
  loop_stopped (loop s') = true ∧ is_recv e = false
  ∧ w_req <$> workers s' = w_req <$> workers s
  ∧ toCheck_sendq s `prefix_of` toCheck_sendq s'.
Proof.
  intros Hst H. step_cases H.
  all: try match goal with H : loop _ = _ |- _ =>
             try rewrite H in Hst; try rewrite H end.
  all: try done.
  all: try (split_and!; [done | done | | done]).
  all: try (split_and!; [done | done | done |]).
  all: try by apply prefix_app_r.
  all: try (match goal with H : toCheck_sendq _ = _ |- _ => by rewrite H end).
  all: by eapply fmap_w_req_insert.
Qed.

(** X2: once the loop has left its [for] (the channel was closed, or
    the [Acquire] of line 52 failed because the lifetime ended or a check
    failed), it never comes back: from then on no request is received and
    no worker is spawned, whatever happens, and every [QueueCheck] that is
    blocked in its send, or blocks later, stays blocked. *)
Theorem stopped_loop_never_dispatches (evs : list Event) (s s' : State) :
  loop_stopped (loop s) = true → run evs s = Some s' →
  loop_stopped (loop s') = true
  ∧ Forall (λ e, is_recv e = false) evs
  ∧ w_req <$> workers s' = w_req <$> workers s
  ∧ toCheck_sendq s `prefix_of` toCheck_sendq s'.
Proof.
  revert s. induction evs as [|e evs IH]; intros s Hst Hrun; simpl in *.
  - simplify_eq. done.
  - destruct (step e s) as [s1|] eqn:Hstep; [|done].
    destruct (step_stopped _ _ _ Hst Hstep) as (Hst1 & He & Hw & Hq).
    destruct (IH _ Hst1 Hrun) as (? & ? & Hw' & Hq').
    split_and!; [done | by constructor | congruence | by etrans].
Qed.

(** ** Workers and the collector *)

Lemma step_worker (e : Event) (s s' : State) i w :
  step e s = Some s' → workers s !! i = Some w →
  ∃ w', workers s' !! i = Some w' ∧ advanced w w'.
Proof.
  intros H Hi. unfold advanced. step_cases H.
  all: try (exists w; split_and!; [done | done | lia | done]).
  all: try (exists w; split_and!; [by apply lookup_app_l_Some | done | lia | done]).
  all: match goal with
       | Hj : workers _ !! ?j = Some ?w0 |- _ =>
           destruct (decide (i = j)) as [->|Hne];
           [ rewrite Hj in Hi; simplify_eq;
             eexists; split;
             [ apply list_lookup_insert_eq; by eapply lookup_lt_Some |];
             simpl;
             match goal with H2 : w_phase _ = _ |- _ => rewrite H2 end;
             simpl; split_and!; [done | lia | by intros; simplify_eq]
           | exists w; rewrite list_lookup_insert_ne by done;
             split_and!; [done | done | lia | done] ]
       end.
Qed.

(** X3: a worker, once spawned, stays the [i]-th task of the group for
    good; it keeps the request it was spawned with, only moves forward
    through its function, and the answer of its backend call, once given,
    is the answer it has in every later state: a received request is put
    to the backend once. *)
Theorem worker_only_advances (evs : list Event) (s s' : State) i w :
  run evs s = Some s' → workers s !! i = Some w →
  ∃ w', workers s' !! i = Some w'
    ∧ w_req w' = w_req w
    ∧ phase_rank (w_phase w') ≤ phase_rank (w_phase w)
    ∧ ∀ o, outcome_of (w_phase w) = Some o → outcome_of (w_phase w') = Some o.
Proof.
  revert s w. induction evs as [|e evs IH]; intros s w Hrun Hi; simpl in *.
  - simplify_eq. exists w. split; [done|]. split_and!; [done | lia | done].
  - destruct (step e s) as [s1|] eqn:Hstep; [|done].
    destruct (step_worker _ _ _ _ _ Hstep Hi) as (w1 & Hi1 & Hr1 & Hp1 & Ho1).
    destruct (IH _ _ Hrun Hi1) as (w' & Hi' & Hr' & Hp' & Ho').
    exists w'. split; [done|]. split_and!; [congruence | lia | auto].
Qed.

Lemma step_collector (e : Event) (s s' : State) :
  step e s = Some s' →
  results s' = results s
  ∨ ∃ i w, e = WorkerBody i ∧ workers s' !! i = Some w
      ∧ outcome_of (w_phase w) = Some (Responded MEMBER)
      ∧ results s' = ONRSet_Add (ObjectAndRelation_ (w_req w)) (results s).
Proof.
  intros H. step_cases H; try by left.
  right. eexists _, _. split; [done|].
  split; [apply list_lookup_insert_eq; by eapply lookup_lt_Some|]. done.
Qed.

Lemma run_collector (evs : list Event) (s s' : State) :
  run evs s = Some s' →
  (∀ x, x ∈ results s → x ∈ results s')
  ∧ (Forall (λ e, is_body e = false) evs → results s' = results s).
Proof.
  revert s. induction evs as [|e evs IH]; intros s Hrun; simpl in *.
  - simplify_eq. done.
  - destruct (step e s) as [s1|] eqn:Hstep; [|done].
    destruct (IH _ Hrun) as (Hin & Heq). split.
    + intros x Hx. apply Hin.
      destruct (step_collector _ _ _ Hstep) as [->|(i & w & _ & _ & _ & ->)];
        [done|]. apply ONRSet_Add_elem. by right.
    + intros [He Hall]%Forall_cons. rewrite (Heq Hall).
      destruct (step_collector _ _ _ Hstep) as [->|(i & w & -> & _)]; done.
Qed.

Lemma inserted_member (ws : list Worker) x :
  x ∈ inserted_resources ws → x ∈ member_resources ws.
Proof.
  unfold inserted_resources, member_resources.
  rewrite !list_elem_of_omap. intros (w & Hw & Hx). exists w. split; [done|].
  unfold inserted_resource, member_of in *.
  destruct (w_phase w) as [|o|o|o|o]; simpl in *; try done.
  all: destruct o as [[]| |]; simpl in *; done.
Qed.

(** X4: at every instant, not only when [Finish] returns, the collector
    holds each resource once, and holds exactly the resources of the
    workers that have run line 68, all of which were answered MEMBER: a
    resource whose checks answered NOT_MEMBER, failed or are still
    pending is never in it.  Nothing is ever taken out again, and only
    the body of a worker changes it. *)
Theorem collector_at_every_instant ctx0 subject0 N evs (s : State) :
  run evs (NewParallelChecker ctx0 subject0 N) = Some s →
  NoDup (results s)
  ∧ (∀ x, x ∈ results s ↔ x ∈ inserted_resources (workers s))
  ∧ (∀ x, x ∈ results s → x ∈ member_resources (workers s))
  ∧ ∀ evs' s', run evs' s = Some s' →
      (∀ x, x ∈ results s → x ∈ results s')
      ∧ (Forall (λ e, is_body e = false) evs' → results s' = results s).
Proof.
  intros Hrun. destruct (run_inv _ _ _ _ _ Hrun) as (Hinv & _).
  destruct Hinv as [_ _ [Hnd Hr] _ _ _ _ _ _].
  split_and!; [done | done | |].
  - intros x Hx. by apply inserted_member, Hr.
  - intros evs' s' Hrun'. by apply run_collector.
Qed.

(** ** The group's lifetime *)

Lemma inv_cancel_step (e : Event) (s s' : State) :
  step e s = Some s' → inv_cancel s → inv_cancel s'.
Proof.
  intros H [Hg Hr]. unfold inv_cancel.
  step_cases H.
  all: simpl in *; try done.
  all: try (split; intros; eauto; done).
  all: try (split; intros; try (apply Hg); try (apply Hr); eauto; done).
Qed.

Lemma run_cancel ctx0 subject0 N evs (s : State) :
  run evs (NewParallelChecker ctx0 subject0 N) = Some s → inv_cancel s.
Proof.
  intros Hr%run_reachable.
  induction Hr as [|s e s' _ IH Hstep].
  - split; simpl; [by intros [? ?] | done].
  - by eapply inv_cancel_step.
Qed.

(** X5: the lifetime the backend calls and the loop's [Acquire] run
    under is done exactly when the caller's lifetime is done, a task of
    the group has returned an error, or [Finish] has returned; its
    [Err()] is then that of the caller's lifetime or [context.Canceled]. *)
Theorem group_lifetime_ends ctx0 subject0 N evs (s : State) :
  run evs (NewParallelChecker ctx0 subject0 N) = Some s →
  (is_Some (checkCtx s)
   ↔ is_Some (ctx s) ∨ is_Some (g_err s) ∨ returned (fin s) = true)
  ∧ (∀ e, checkCtx s = Some e → ctx s = Some e ∨ e = Canceled).
Proof.
  intros Hrun. destruct (run_inv _ _ _ _ _ Hrun) as (Hinv & _).
  destruct (run_cancel _ _ _ _ _ Hrun) as [Hg Hr].
  destruct Hinv as [_ _ _ _ _ (_ & Hx & Hi) _ _ _].
  split; [|by intros e [?|[? _]]%Hx; eauto].
  split.
  - intros [e He']. destruct (Hx e He') as [?|(_ & [?|?])]; eauto.
  - intros [?|[?|?]]; eauto.
Qed.

(** ** What [Finish] returns, and when *)

Lemma step_after_return (e : Event) (s s' : State) :
  inv s → returned (fin s) = true → step e s = Some s' →
  fin s' = fin s ∧ results s' = results s ∧ workers s' = workers s
  ∧ sem_cur s' = sem_cur s
  ∧ internal e = false ∧ is_backend_return e = false.
Proof.
  intros Hinv Hr H.
  destruct (internal e) eqn:Hint.
  { by rewrite (returned_stuck e s Hinv Hr Hint) in H. }
  destruct Hinv as [_ (Hc1 & _ & Hc3) _ Hret _ _ _ _ _].
  destruct (fin s) as [| |c r] eqn:Hfin; try done.
  destruct (Hret c r Hfin) as (Hld & Hwd & _). clear Hret.
  assert (toCheck_closed s = true) as Hcl.
  { destruct (toCheck_closed s); [done|].
    destruct Hc1 as [Hc1 _]. by specialize (Hc1 eq_refl). }
  clear Hc1.
  step_cases H.
  all: try done.
  all: try match goal with H : loop _ = _ |- _ => rewrite H in Hld; done end.
  all: try match goal with
  | H : workers _ !! _ = Some ?w, H2 : w_phase ?w = _ |- _ =>
      pose proof (forallb_is_done_lookup _ _ _ Hwd H) as Hd;
      unfold is_done in Hd; rewrite H2 in Hd; done
  end.
Qed.

(** X6: when [Finish] has returned, with a collector or with an error,
    the group is at rest: the loop and every worker have returned, no
    backend call is in progress, no worker holds a token, and the group's
    lifetime is done.  What was returned is final: later only calls of
    the caller and the end of its lifetime can happen, and they change
    neither the collector, nor the workers, nor the pool. *)
Theorem finish_return_is_final ctx0 subject0 N evs (s : State) c r :
  run evs (NewParallelChecker ctx0 subject0 N) = Some s →
  fin s = FRet c r →
  loop_done (loop s) = true ∧ forallb is_done (workers s) = true
  ∧ in_flight (workers s) = 0 ∧ holders (workers s) = 0
  ∧ is_Some (checkCtx s)
  ∧ ∀ evs' s', run evs' s = Some s' →
      fin s' = FRet c r ∧ results s' = results s ∧ workers s' = workers s
      ∧ sem_cur s' = sem_cur s
      ∧ Forall (λ e, internal e = false ∧ is_backend_return e = false) evs'.
Proof.
  intros Hrun Hfin. destruct (run_inv _ _ _ _ _ Hrun) as (Hinv & _).
  destruct (run_cancel _ _ _ _ _ Hrun) as [_ Hcc].
  destruct (returned_result _ _ _ Hinv Hfin) as (Hld & Hwd & _).
  pose proof (all_done_holders _ Hwd) as Hh.
  pose proof (in_flight_le_holders (workers s)) as Hle.
  split_and!; [done | done | lia | done | by apply Hcc; rewrite Hfin |].
  clear Hld Hwd Hh Hle Hcc Hrun.
  intros evs'. revert s Hinv Hfin.
  induction evs' as [|e evs' IH]; intros s Hinv Hfin s' Hrun'; simpl in *.
  - simplify_eq. done.
  - destruct (step e s) as [s1|] eqn:Hstep; [|done].
    assert (returned (fin s) = true) as Hr by (by rewrite Hfin).
    destruct (step_after_return _ _ _ Hinv Hr Hstep)
      as (Hf & Hres & Hws & Hsem & Hi & Hb).
    destruct (IH s1) with (s' := s') as (-> & -> & -> & -> & Hall);
      [by eapply inv_step | congruence | done |].
    split_and!; [done | done | done | done | by constructor].
Qed.

(** X7: [Finish] never fails without a cause.  An error it returns
    comes with no collector, is the first error a task handed to the
    group, and is the error of the backend call of a dispatched check, or
    the [Err()] of the caller's own lifetime, returned by the loop: the
    error of a failing [Acquire] is returned only when it is that of the
    caller's lifetime. *)
Theorem finish_error_has_cause ctx0 subject0 N evs (s : State) c e :
  run evs (NewParallelChecker ctx0 subject0 N) = Some s →
  fin s = FRet c (Some e) →
  c = None ∧ head (failures s) = Some e
  ∧ (e ∈ failed_errors (workers s)
     ∨ (ctx s = Some e ∧ loop s = LDone (Some e))).
Proof.
  intros Hrun Hfin. destruct (run_inv _ _ _ _ _ Hrun) as (Hinv & _).
  destruct (returned_result _ _ _ Hinv Hfin) as (_ & Hall & Hres).
  destruct (all_done_outcomes _ Hall) as [_ Hde].
  destruct Hinv as [_ _ _ _ _ _ Hfirst _ _].
  destruct Hres as [(-> & He & _)|(_ & ? & _)]; [|done].
  split_and!; [done..|]. rewrite <- Hde. by apply Hfirst.
Qed.

Lemma step_first_error (e0 : Event) (s s' : State) e :
  step e0 s = Some s' → g_err s = Some e → g_err s' = Some e.
Proof. intros H He. step_cases H; done. Qed.

(** X8: the first error is final.  Once a task has handed an error to
    the group, the group keeps that error whatever happens later (further
    failures, the end of the caller's lifetime), and the only thing
    [Finish] can return from then on is that error and no collector. *)
Theorem first_error_is_final ctx0 subject0 N evs (s : State) e :
  run evs (NewParallelChecker ctx0 subject0 N) = Some s →
  g_err s = Some e →
  ∀ evs' s', run evs' s = Some s' →
    g_err s' = Some e ∧ head (failures s') = Some e
    ∧ ∀ c r, fin s' = FRet c r → c = None ∧ r = Some e.
Proof.
  intros Hrun He evs' s' Hrun'.
  assert (g_err s' = Some e) as He'.
  { clear Hrun. revert s He Hrun'.
    induction evs' as [|e0 evs' IH]; intros s He Hrun'; simpl in *.
    - by simplify_eq.
    - destruct (step e0 s) as [s1|] eqn:Hstep; [|done].
      eapply IH; [|done]. by eapply step_first_error. }
  assert (run (evs ++ evs') (NewParallelChecker ctx0 subject0 N) = Some s')
    as Hrun2 by (rewrite run_app, Hrun; done).
  destruct (run_inv _ _ _ _ _ Hrun2) as (Hinv & _).
  destruct Hinv as [_ _ _ Hret [Hg _] _ _ _ _].
  split_and!; [done | congruence |].
  intros c r Hfin. destruct (Hret c r Hfin) as (_ & _ & Hres).
  unfold Finish_result in Hres. rewrite He' in Hres. by simplify_eq.
Qed.

Lemma step_in_flight (e : Event) (s s' : State) :
  step e s = Some s' → is_backend_return e = false →
  in_flight (workers s) ≤ in_flight (workers s').
Proof.
  intros H. step_cases H.
  all: intros Hb; try done.
  all: try match goal with
    | Hw : workers ?s !! ?i = Some ?w
      |- context [<[?i:=MkWorker _ ?p]> (workers ?s)] =>
        pose proof (in_flight_insert _ _ _ p Hw)
    end.
  all: repeat match goal with
    | Hl : w_phase _ = _ |- _ => rewrite Hl in *; clear Hl
    end; simpl in *.
  all: try lia.
  unfold in_flight. rewrite sum_list_with_app. simpl. lia.
Qed.

(** X9: [Finish] waits for the backend.  While a backend call is in
    progress [Finish] has not returned, and nothing but the return of
    that call lets it return: not the end of the caller's lifetime, not
    the failure of another check, not the return of the loop.  The code
    relies on the backend to give up when its lifetime is done. *)
Theorem finish_waits_for_backend ctx0 subject0 N evs (s : State) :
  run evs (NewParallelChecker ctx0 subject0 N) = Some s →
  0 < in_flight (workers s) →
  ∀ evs' s', run evs' s = Some s' →
    Forall (λ e, is_backend_return e = false) evs' →
    0 < in_flight (workers s') ∧ returned (fin s') = false.
Proof.
  intros Hrun Hfl evs' s' Hrun' Hall.
  assert (run (evs ++ evs') (NewParallelChecker ctx0 subject0 N) = Some s')
    as Hrun2 by (rewrite run_app, Hrun; done).
  assert (in_flight (workers s) ≤ in_flight (workers s')) as Hle.
  { clear Hrun Hrun2 Hfl. revert s Hrun'.
    induction Hall as [|e0 evs' Hb Hall IH]; intros s Hrun'; simpl in *.
    - by simplify_eq.
    - destruct (step e0 s) as [s1|] eqn:Hstep; [|done].
      pose proof (step_in_flight _ _ _ Hstep Hb). specialize (IH _ Hrun'). lia. }
  split; [lia|].
  destruct (fin s') as [| |c r] eqn:Hfin; try done.
  destruct (run_inv _ _ _ _ _ Hrun2) as (Hinv & _).
  destruct (returned_result _ _ _ Hinv Hfin) as (_ & Hwd & _).
  pose proof (all_done_holders _ Hwd).
  pose proof (in_flight_le_holders (workers s')). lia.
Qed.

(** X10: [Finish] returns.  Once it waits in [pc.g.Wait()], no backend
    call is pending, and maxConcurrent is at least 1 or the group's
    lifetime is done, every schedule of the remaining steps is bounded, never stuck,
    and ends with [Finish] handing back the first error and no collector,
    or the collector and no error when no task failed: whether checks
    failed, the caller cancelled, or neither. *)
Theorem finish_always_returns ctx0 subject0 N evs (s : State) :
  run evs (NewParallelChecker ctx0 subject0 N) = Some s →
  draining s →
  finish_returns s (λ s',
    (∃ e, fin s' = FRet None (Some e) ∧ head (failures s') = Some e)
    ∨ (fin s' = FRet (Some (results s')) None ∧ failures s' = [])).
Proof.
  intros Hrun Hdr. eapply finish_returns_intro; [done..|].
  intros evs' s' Hall Hrun' Hrun2 Hret.
  destruct (run_inv _ _ _ _ _ Hrun2) as (Hinv & _).
  destruct (fin s') as [| |c r] eqn:Hfin; try done.
  destruct (returned_result _ _ _ Hinv Hfin)
    as (_ & _ & [(-> & -> & [e He])|(-> & -> & Hnil)]).
  - left. exists e. by rewrite He.
  - by right.
Qed.

(** X11: when [Finish] has returned and the program has not panicked,
    every [QueueCheck] call ever made has been served: no caller is left
    blocked in its send, the requests of the calls are, one for one, the
    requests of the workers, and every worker has returned.  This holds
    for a return with an error as well. *)
Theorem finish_accounts_for_every_check ctx0 subject0 N evs (s : State) c r :
  run evs (NewParallelChecker ctx0 subject0 N) = Some s →
  fin s = FRet c r → panicked s = None →
  toCheck_sendq s = []
  ∧ request_of subject0 <$> queued s ≡ₚ w_req <$> workers s
  ∧ length (workers s) = length (queued s)
  ∧ ∀ i w, workers s !! i = Some w → ∃ o, w_phase w = PDone o.
Proof.
  intros Hrun Hfin Hp. destruct (run_inv _ _ _ _ _ Hrun) as (Hinv & _ & Hsub).
  destruct (returned_result _ _ _ Hinv Hfin) as (_ & Hwd & _).
  destruct Hinv as [_ (Hc1 & Hc2 & _) _ _ _ _ _ [Hperm _] _].
  assert (toCheck_closed s = true) as Hcl.
  { destruct (toCheck_closed s); [done|].
    destruct Hc1 as [Hc1 _]. rewrite Hc1 in Hfin; done. }
  specialize (Hc2 Hcl Hp). specialize (Hperm Hp).
  unfold requests_of in Hperm. rewrite Hsub, Hc2, app_nil_r in Hperm.
  split_and!; [done | done | |].
  - apply Permutation_length in Hperm. by rewrite !length_fmap in Hperm.
  - intros i w Hi. pose proof (forallb_is_done_lookup _ _ _ Hwd Hi) as Hd.
    unfold is_done in Hd. destruct (w_phase w); try done. eauto.
Qed.

(** ** A free slot is used *)







End Properties.

(** * Witnesses on the runs *)

Lemma C1_witness :
  (run two_in_flight (NewParallelChecker None user_u 2)
   = Some two_in_flight_state
   ∧ in_flight (workers two_in_flight_state) = 2
   ∧ step LoopAcquireOk two_in_flight_state = None
   ∧ in_flight (workers two_in_flight_state) ≤ 2)
  ∧ (run (two_in_flight ++ answered) (NewParallelChecker None user_u 2)
     = Some answered_state
     ∧ panicked answered_state = None
     ∧ workers answered_state !! 0
       = Some (MkWorker (Request 5 doc_a user_u) (PDefer (Responded MEMBER)))
     ∧ sem_cur answered_state = 2
     ∧ ∃ s', step (WorkerRelease 0) answered_state = Some s'
         ∧ panicked s' = None
         ∧ workers s' !! 0
           = Some (MkWorker (Request 5 doc_a user_u)
                     (PExit (Responded MEMBER)))
         ∧ sem_cur s' + 1 = sem_cur answered_state
         ∧ holders (workers s') + 1 = holders (workers answered_state)
         ∧ step (WorkerRelease 0) s' = None).
Proof.
  split.
  - split; [reflexivity|]. split; [reflexivity|]. split; [reflexivity|].
    destruct (C1_concurrency_bound None user_u 2 two_in_flight
                two_in_flight_state eq_refl) as (_ & _ & _ & H & _).
    exact H.
  - split; [reflexivity|]. split; [reflexivity|]. split; [reflexivity|].
    split; [reflexivity|].
    destruct (C1_concurrency_bound None user_u 2 (two_in_flight ++ answered)
                answered_state eq_refl)
      as (_ & _ & _ & _ & _ & _ & _ & _ & H).
    exact (H eq_refl 0
             (MkWorker (Request 5 doc_a user_u) (PDefer (Responded MEMBER)))
             (Responded MEMBER) eq_refl eq_refl).
Defined.

Lemma failing_run_failed :
  BackendError "backend down" ∈ failed_errors (workers failing_state).
Proof. vm_compute. constructor. Qed.

Lemma failing_waiting_failed :
  BackendError "backend down" ∈ failed_errors (workers failing_waiting_state).
Proof. vm_compute. constructor. Qed.

Lemma failing_waiting_draining : draining failing_waiting_state.
Proof. split_and!; [reflexivity..|]. left. vm_compute. lia. Qed.

Lemma C2_witness :
  (run failing_run (NewParallelChecker None user_u 1) = Some failing_state
   ∧ BackendError "backend down" ∈ failed_errors (workers failing_state)
   ∧ ctx failing_state = None
   ∧ fin failing_state = FRet None (Some (BackendError "backend down"))
   ∧ ∀ c r, fin failing_state = FRet c r →
       c = None ∧ ∃ e, r = Some e ∧ head (failures failing_state) = Some e
         ∧ (e ∈ failed_errors (workers failing_state)
            ∨ ctx failing_state = Some e)
         ∧ (ctx failing_state = None
            → e ∈ failed_errors (workers failing_state))
         ∧ ((∀ e', e' ∈ failed_errors (workers failing_state) →
               e' = BackendError "backend down") →
            ctx failing_state = None → e = BackendError "backend down"))
  ∧ (run failing_waiting (NewParallelChecker None user_u 1)
     = Some failing_waiting_state
     ∧ draining failing_waiting_state
     ∧ finish_returns failing_waiting_state (λ s', ∃ e,
         fin s' = FRet None (Some e) ∧ head (failures s') = Some e
         ∧ (e ∈ failed_errors (workers failing_waiting_state)
            ∨ ctx failing_waiting_state = Some e)
         ∧ (ctx failing_waiting_state = None
            → e ∈ failed_errors (workers failing_waiting_state)))).
Proof.
  split.
  - split; [reflexivity|]. split; [exact failing_run_failed|].
    split; [reflexivity|]. split; [reflexivity|].
    destruct (C2_first_error_wins None user_u 1 failing_run failing_state
                eq_refl) as [_ H].
    exact (proj1 (H (BackendError "backend down") failing_run_failed)).
  - split; [reflexivity|]. split; [exact failing_waiting_draining|].
    destruct (C2_first_error_wins None user_u 1 failing_waiting
                failing_waiting_state eq_refl) as [_ H].
    exact (proj2 (H (BackendError "backend down") failing_waiting_failed)
                 failing_waiting_draining).
Defined.

(** The only check enqueued failed with "backend down", and [Finish]
    returned the error of the caller's deadline, which no check returned. *)
Lemma C2_counterexample :
  run deadline_run (NewParallelChecker None user_u 1) = Some deadline_state
  ∧ queued deadline_state = [(doc_a, 5)]
  ∧ workers deadline_state
    = [MkWorker (Request 5 doc_a user_u)
         (PDone (Failed (BackendError "backend down")))]
  ∧ failed_errors (workers deadline_state) = [BackendError "backend down"]
  ∧ failures deadline_state = [DeadlineExceeded; BackendError "backend down"]
  ∧ panicked deadline_state = None
  ∧ fin deadline_state = FRet None (Some DeadlineExceeded)
  ∧ DeadlineExceeded ∉ failed_errors (workers deadline_state).
Proof.
  repeat split. intros H. apply list_elem_of_singleton in H. discriminate H.
Qed.

(** Every enqueued check completed without error, and [Finish] returned
    the lifetime's error and no collector. *)
Lemma C3_counterexample :
  run cancelled_run (NewParallelChecker None user_u 1) = Some cancelled_state
  ∧ queued cancelled_state = [(doc_a, 5)]
  ∧ toCheck_sendq cancelled_state = []
  ∧ workers cancelled_state
    = [MkWorker (Request 5 doc_a user_u) (PDone (Responded MEMBER))]
  ∧ failed_errors (workers cancelled_state) = []
  ∧ member_resources (workers cancelled_state) = [doc_a]
  ∧ fin cancelled_state = FRet None (Some Canceled)
  ∧ ∀ coll r, fin cancelled_state ≠ FRet (Some coll) r.
Proof. repeat split. discriminate. Qed.

Lemma members_waiting_draining : draining members_waiting_state.
Proof. split_and!; [reflexivity..|]. left. vm_compute. lia. Qed.

Lemma C3_witness :
  (run members_run (NewParallelChecker None user_u 2) = Some members_state
   ∧ fin members_state = FRet (Some [doc_c; doc_a]) None
   ∧ member_resources (workers members_state) = [doc_a; doc_c; doc_a]
   ∧ NoDup [doc_c; doc_a]
   ∧ ∀ x, x ∈ [doc_c; doc_a] ↔ x ∈ member_resources (workers members_state))
  ∧ (run members_waiting (NewParallelChecker None user_u 2)
     = Some members_waiting_state
     ∧ failed_errors (workers members_waiting_state) = []
     ∧ ctx members_waiting_state = None
     ∧ draining members_waiting_state
     ∧ finish_returns members_waiting_state (λ s', ∃ coll,
         fin s' = FRet (Some coll) None ∧ NoDup coll
         ∧ ∀ x, x ∈ coll
                ↔ x ∈ member_resources (workers members_waiting_state))).
Proof.
  split.
  - split; [reflexivity|]. split; [reflexivity|]. split; [reflexivity|].
    destruct (C3_members_collected None user_u 2 members_run members_state
                eq_refl) as [H _].
    destruct (H [doc_c; doc_a] None eq_refl) as (_ & Hnd & Hel & _).
    split; assumption.
  - split; [reflexivity|]. split; [reflexivity|]. split; [reflexivity|].
    split; [exact members_waiting_draining|].
    destruct (C3_members_collected None user_u 2 members_waiting
                members_waiting_state eq_refl) as [_ H].
    destruct (H eq_refl eq_refl) as [_ Hret].
    exact (Hret members_waiting_draining).
Defined.

Lemma C4_witness :
  run members_run (NewParallelChecker None user_u 2) = Some members_state
  ∧ fin members_state = FRet (Some [doc_c; doc_a]) None
  ∧ ∃ pre post s1,
      members_run = pre ++ LoopDrainOk :: post
      ∧ WaitReturn ∈ post
      ∧ Forall (λ e, worker_event e = false) post
      ∧ run pre (NewParallelChecker None user_u 2) = Some s1
      ∧ holders (workers s1) = 0
      ∧ results s1 = [doc_c; doc_a].
Proof.
  split; [reflexivity|]. split; [reflexivity|].
  destruct (C4_finish_after_drain None user_u 2 members_run members_state
              [doc_c; doc_a] eq_refl eq_refl)
    as (pre & post & s1 & H1 & H2 & H3 & H4 & _ & _ & H5 & _ & H6 & _).
  exists pre, post, s1. repeat split; assumption.
Defined.

(** [Start], then [Finish], no check ever enqueued, and [Finish] returned
    an error and no collector: with a lifetime cancelled before the
    loop's first [Acquire], and with a ceiling of 0. *)
Lemma C5_counterexample :
  (run idle_cancelled_run (NewParallelChecker None user_u 1)
   = Some idle_cancelled_state
   ∧ queued idle_cancelled_state = []
   ∧ fin idle_cancelled_state = FRet None (Some Canceled)
   ∧ fin idle_cancelled_state ≠ FRet (Some []) None)
  ∧ (run tokenless_run (NewParallelChecker None user_u 0)
     = Some tokenless_state
     ∧ queued tokenless_state = []
     ∧ fin tokenless_state = FRet None (Some DeadlineExceeded)
     ∧ fin tokenless_state ≠ FRet (Some []) None).
Proof. repeat split; discriminate. Qed.

Lemma C5_witness :
  (run idle_run (NewParallelChecker None user_u 1) = Some idle_state
   ∧ queued idle_state = []
   ∧ ctx idle_state = None
   ∧ fin idle_state = FRet (Some []) None
   ∧ workers idle_state = []
   ∧ ∀ c r, fin idle_state = FRet c r →
       (∀ coll, c = Some coll → coll = [])
       ∧ (ctx idle_state = None → c = Some [] ∧ r = None))
  ∧ (run idle_waiting (NewParallelChecker None user_u 1)
     = Some idle_waiting_state
     ∧ queued idle_waiting_state = []
     ∧ ctx idle_waiting_state = None
     ∧ fin idle_waiting_state = FWait
     ∧ finish_returns idle_waiting_state
         (λ s', fin s' = FRet (Some []) None)).
Proof.
  split.
  - split; [reflexivity|]. split; [reflexivity|]. split; [reflexivity|].
    split; [reflexivity|].
    destruct (C5_no_checks None user_u 1 idle_run idle_state eq_refl eq_refl)
      as (Hws & H & _).
    split; [exact Hws | exact H].
  - split; [reflexivity|]. split; [reflexivity|]. split; [reflexivity|].
    split; [reflexivity|].
    destruct (C5_no_checks None user_u 1 idle_waiting idle_waiting_state
                eq_refl eq_refl) as (_ & _ & H).
    exact (H (le_n 1) eq_refl eq_refl eq_refl).
Defined.

Lemma C6_witness :
  run two_in_flight (NewParallelChecker None user_u 2)
  = Some two_in_flight_state
  ∧ workers two_in_flight_state !! 1
    = Some (MkWorker (Request 5 doc_b user_u) PCall)
  ∧ toCheck_sendq two_in_flight_state = [Request 5 doc_c user_u]
  ∧ Subject (Request 5 doc_b user_u) = user_u
  ∧ ∃ resource meta, (resource, meta) ∈ queued two_in_flight_state
      ∧ Request 5 doc_b user_u = Request meta resource user_u.
Proof.
  split; [reflexivity|]. split; [reflexivity|]. split; [reflexivity|].
  destruct (C6_request_passthrough None user_u 2 two_in_flight
              two_in_flight_state eq_refl) as (_ & H & _).
  exact (H 1 (MkWorker (Request 5 doc_b user_u) PCall) eq_refl).
Defined.

(** A ceiling of 0 is not rejected: the constructor returns a dispatcher,
    which [Start] and [QueueCheck] then work on. *)
Lemma C7_counterexample :
  panicked (NewParallelChecker (ResolverMeta:=nat) None user_u 0) = None
  ∧ maxConcurrent (NewParallelChecker (ResolverMeta:=nat) None user_u 0) = 0
  ∧ run tokenless_start (NewParallelChecker None user_u 0)
    = Some tokenless_start_state
  ∧ panicked tokenless_start_state = None
  ∧ loop tokenless_start_state = LAcquire
  ∧ toCheck_sendq tokenless_start_state = [Request 5 doc_a user_u].
Proof. repeat split. Qed.

Lemma C7_witness :
  run tokenless_run (NewParallelChecker None user_u 0) = Some tokenless_state
  ∧ fin tokenless_state = FRet None (Some DeadlineExceeded)
  ∧ maxConcurrent tokenless_state = 0
  ∧ workers tokenless_state = []
  ∧ in_flight (workers tokenless_state) = 0.
Proof.
  split; [reflexivity|]. split; [reflexivity|].
  destruct (C7_zero_ceiling_accepted None user_u 0 tokenless_run
              tokenless_state eq_refl) as (_ & HN & H).
  split; [exact HN|].
  destruct (H eq_refl) as (Hws & Hfl & _). split; assumption.
Defined.

Lemma members_state_running : panicked members_state = None.
Proof. reflexivity. Qed.

Lemma members_state_finished : fin members_state ≠ FIdle.
Proof. discriminate. Qed.

Lemma C8_witness :
  run members_run (NewParallelChecker None user_u 2) = Some members_state
  ∧ ∃ s', step (CallQueueCheck doc_b 3) members_state = Some s'
      ∧ panicked s' = Some SendOnClosedChannel
      ∧ workers s' = workers members_state
      ∧ results s' = results members_state.
Proof.
  split; [reflexivity|].
  destruct (C8_enqueue_after_finish_panics None user_u 2 members_run
              members_state doc_b 3 eq_refl members_state_running
              members_state_finished)
    as (s' & H1 & H2 & _ & H3 & H4 & _).
  exists s'. repeat split; assumption.
Defined.

Lemma idle_state_running : panicked idle_state = None.
Proof. reflexivity. Qed.

Lemma idle_state_finished : fin idle_state ≠ FIdle.
Proof. discriminate. Qed.

Lemma C9_witness :
  run idle_run (NewParallelChecker None user_u 1) = Some idle_state
  ∧ ∃ s', step CallFinish idle_state = Some s'
      ∧ panicked s' = Some CloseOfClosedChannel
      ∧ ∀ e, step e s' = None.
Proof.
  split; [reflexivity|].
  destruct (C9_second_finish_panics None user_u 1 idle_run idle_state
              eq_refl idle_state_running idle_state_finished)
    as (s' & H1 & H2 & _ & _ & H3).
  exists s'. repeat split; assumption.
Defined.

Lemma C10_witness :
  (run tokenless_run (NewParallelChecker None user_u 0) = Some tokenless_state
   ∧ fin tokenless_state = FRet None (Some DeadlineExceeded)
   ∧ ctx tokenless_state = Some DeadlineExceeded
   ∧ step LoopAcquireOk tokenless_state = None
   ∧ workers tokenless_state = []
   ∧ ∀ c r, fin tokenless_state = FRet c r →
       ∃ e, ctx tokenless_state = Some e ∧ c = None ∧ r = Some e)
  ∧ (run tokenless_blocked (NewParallelChecker None user_u 0)
     = Some tokenless_blocked_state
     ∧ fin tokenless_blocked_state = FWait
     ∧ ctx tokenless_blocked_state = None
     ∧ ∀ e, internal e = true → step e tokenless_blocked_state = None)
  ∧ (run tokenless_cancelled (NewParallelChecker None user_u 0)
     = Some tokenless_cancelled_state
     ∧ fin tokenless_cancelled_state = FWait
     ∧ ctx tokenless_cancelled_state = Some DeadlineExceeded
     ∧ finish_returns tokenless_cancelled_state
         (λ s', fin s' = FRet None (Some DeadlineExceeded))).
Proof.
  split; [|split].
  - split; [reflexivity|]. split; [reflexivity|]. split; [reflexivity|].
    destruct (C10_zero_ceiling_blocks None user_u tokenless_run
                tokenless_state eq_refl) as (H1 & H2 & H3 & _).
    split; [exact H1|]. split; [exact H2 | exact H3].
  - split; [reflexivity|]. split; [reflexivity|]. split; [reflexivity|].
    destruct (C10_zero_ceiling_blocks None user_u tokenless_blocked
                tokenless_blocked_state eq_refl) as (_ & _ & _ & H & _).
    exact (H eq_refl eq_refl).
  - split; [reflexivity|]. split; [reflexivity|]. split; [reflexivity|].
    destruct (C10_zero_ceiling_blocks None user_u tokenless_cancelled
                tokenless_cancelled_state eq_refl) as (_ & _ & _ & _ & H).
    exact (H eq_refl eq_refl DeadlineExceeded eq_refl).
Defined.

(** * Witnesses of the further properties *)

Lemma panics_are_misuse_witness :
  run two_in_flight (NewParallelChecker None user_u 2)
  = Some two_in_flight_state
  ∧ (step CallFinish two_in_flight_state = Some blocked_finish_state
     ∧ panicked blocked_finish_state = Some SendOnClosedChannel)
  ∧ (step (BackendReturn 0 NoResponse) two_in_flight_state
     = Some nil_response_state
     ∧ panicked nil_response_state = Some NilDereference).
Proof.
  split; [reflexivity|]. split.
  - split; [reflexivity|].
    exact (panics_are_misuse None user_u 2 two_in_flight two_in_flight_state
             blocked_finish_state CallFinish eq_refl eq_refl).
  - split; [reflexivity|].
    exact (panics_are_misuse None user_u 2 two_in_flight two_in_flight_state
             nil_response_state (BackendReturn 0 NoResponse) eq_refl eq_refl).
Defined.

Lemma stopped_loop_never_dispatches_witness :
  loop_stopped (loop stopped_loop_state) = true
  ∧ run stopped_enqueue stopped_loop_state = Some stopped_enqueue_state
  ∧ toCheck_sendq stopped_enqueue_state = [Request 5 doc_c user_u]
  ∧ loop_stopped (loop stopped_enqueue_state) = true
  ∧ Forall (λ e, is_recv e = false) stopped_enqueue
  ∧ w_req <$> workers stopped_enqueue_state
    = w_req <$> workers stopped_loop_state
  ∧ toCheck_sendq stopped_loop_state
    `prefix_of` toCheck_sendq stopped_enqueue_state.
Proof.
  split; [reflexivity|]. split; [reflexivity|]. split; [reflexivity|].
  exact (stopped_loop_never_dispatches stopped_enqueue stopped_loop_state
           stopped_enqueue_state eq_refl eq_refl).
Defined.

Lemma worker_only_advances_witness :
  run released answered_state = Some released_state
  ∧ workers answered_state !! 0
    = Some (MkWorker (Request 5 doc_a user_u) (PDefer (Responded MEMBER)))
  ∧ ∃ w', workers released_state !! 0 = Some w'
      ∧ w_req w' = Request 5 doc_a user_u
      ∧ phase_rank (w_phase w') ≤ 2
      ∧ outcome_of (w_phase w') = Some (Responded MEMBER).
Proof.
  split; [reflexivity|]. split; [reflexivity|].
  destruct (worker_only_advances released answered_state released_state 0
              (MkWorker (Request 5 doc_a user_u) (PDefer (Responded MEMBER)))
              eq_refl eq_refl) as (w' & H1 & H2 & H3 & H4).
  exists w'. split; [exact H1|]. split; [exact H2|]. split; [exact H3|].
  exact (H4 (Responded MEMBER) eq_refl).
Defined.

Lemma collector_at_every_instant_witness :
  run (two_in_flight ++ answered) (NewParallelChecker None user_u 2)
  = Some answered_state
  ∧ results answered_state = [doc_a]
  ∧ NoDup (results answered_state)
  ∧ (∀ x, x ∈ results answered_state
          ↔ x ∈ inserted_resources (workers answered_state))
  ∧ (∀ x, x ∈ results answered_state
          → x ∈ member_resources (workers answered_state))
  ∧ ∀ evs' s', run evs' answered_state = Some s' →
      (∀ x, x ∈ results answered_state → x ∈ results s')
      ∧ (Forall (λ e, is_body e = false) evs'
         → results s' = results answered_state).
Proof.
  split; [reflexivity|]. split; [reflexivity|].
  exact (collector_at_every_instant None user_u 2 (two_in_flight ++ answered)
           answered_state eq_refl).
Defined.

Lemma group_lifetime_ends_witness :
  run failed_check (NewParallelChecker None user_u 1) = Some failed_check_state
  ∧ ctx failed_check_state = None
  ∧ g_err failed_check_state = Some (BackendError "backend down")
  ∧ checkCtx failed_check_state = Some Canceled
  ∧ (is_Some (checkCtx failed_check_state)
     ↔ is_Some (ctx failed_check_state) ∨ is_Some (g_err failed_check_state)
       ∨ returned (fin failed_check_state) = true)
  ∧ (∀ e, checkCtx failed_check_state = Some e
          → ctx failed_check_state = Some e ∨ e = Canceled).
Proof.
  split; [reflexivity|]. split; [reflexivity|]. split; [reflexivity|].
  split; [reflexivity|].
  exact (group_lifetime_ends None user_u 1 failed_check failed_check_state
           eq_refl).
Defined.

Lemma finish_return_is_final_witness :
  run failing_run (NewParallelChecker None user_u 1) = Some failing_state
  ∧ fin failing_state = FRet None (Some (BackendError "backend down"))
  ∧ run late_deadline failing_state = Some late_deadline_state
  ∧ ctx late_deadline_state = Some DeadlineExceeded
  ∧ loop_done (loop failing_state) = true
  ∧ forallb is_done (workers failing_state) = true
  ∧ in_flight (workers failing_state) = 0
  ∧ holders (workers failing_state) = 0
  ∧ is_Some (checkCtx failing_state)
  ∧ fin late_deadline_state = FRet None (Some (BackendError "backend down"))
  ∧ results late_deadline_state = results failing_state
  ∧ workers late_deadline_state = workers failing_state
  ∧ sem_cur late_deadline_state = sem_cur failing_state
  ∧ Forall (λ e, internal e = false ∧ is_backend_return e = false)
      late_deadline.
Proof.
  split; [reflexivity|]. split; [reflexivity|]. split; [reflexivity|].
  split; [reflexivity|].
  destruct (finish_return_is_final None user_u 1 failing_run failing_state
              None (Some (BackendError "backend down")) eq_refl eq_refl)
    as (H1 & H2 & H3 & H4 & H5 & H6).
  split; [exact H1|]. split; [exact H2|]. split; [exact H3|].
  split; [exact H4|]. split; [exact H5|].
  exact (H6 late_deadline late_deadline_state eq_refl).
Defined.

Lemma finish_error_has_cause_witness :
  run cancelled_run (NewParallelChecker None user_u 1) = Some cancelled_state
  ∧ fin cancelled_state = FRet None (Some Canceled)
  ∧ failed_errors (workers cancelled_state) = []
  ∧ head (failures cancelled_state) = Some Canceled
  ∧ (Canceled ∈ failed_errors (workers cancelled_state)
     ∨ (ctx cancelled_state = Some Canceled
        ∧ loop cancelled_state = LDone (Some Canceled))).
Proof.
  split; [reflexivity|]. split; [reflexivity|]. split; [reflexivity|].
  destruct (finish_error_has_cause None user_u 1 cancelled_run cancelled_state
              None Canceled eq_refl eq_refl) as (_ & H1 & H2).
  split; [exact H1 | exact H2].
Defined.

Lemma first_error_is_final_witness :
  run failed_check (NewParallelChecker None user_u 1) = Some failed_check_state
  ∧ g_err failed_check_state = Some (BackendError "backend down")
  ∧ run (drop 15 failing_run) failed_check_state = Some failing_state
  ∧ g_err failing_state = Some (BackendError "backend down")
  ∧ head (failures failing_state) = Some (BackendError "backend down")
  ∧ ∀ c r, fin failing_state = FRet c r
      → c = None ∧ r = Some (BackendError "backend down").
Proof.
  split; [reflexivity|]. split; [reflexivity|]. split; [reflexivity|].
  exact (first_error_is_final None user_u 1 failed_check failed_check_state
           (BackendError "backend down") eq_refl eq_refl
           (drop 15 failing_run) failing_state eq_refl).
Defined.

Lemma pending_cancelled_quiet :
  Forall (λ e : Event nat, is_backend_return e = false) pending_cancelled.
Proof. repeat constructor. Defined.

Lemma finish_waits_for_backend_witness :
  run pending_run (NewParallelChecker None user_u 1) = Some pending_state
  ∧ in_flight (workers pending_state) = 1
  ∧ run pending_cancelled pending_state = Some pending_cancelled_state
  ∧ loop pending_cancelled_state = LDone (Some Canceled)
  ∧ 0 < in_flight (workers pending_cancelled_state)
  ∧ returned (fin pending_cancelled_state) = false.
Proof.
  split; [reflexivity|]. split; [reflexivity|]. split; [reflexivity|].
  split; [reflexivity|].
  exact (finish_waits_for_backend None user_u 1 pending_run pending_state
           eq_refl (le_n 1) pending_cancelled pending_cancelled_state eq_refl
           pending_cancelled_quiet).
Defined.

Lemma cancelled_waiting_draining : draining cancelled_waiting_state.
Proof. split_and!; [reflexivity | reflexivity | reflexivity | left; simpl; lia]. Defined.

Lemma finish_always_returns_witness :
  run cancelled_waiting (NewParallelChecker None user_u 1)
  = Some cancelled_waiting_state
  ∧ draining cancelled_waiting_state
  ∧ failed_errors (workers cancelled_waiting_state) = []
  ∧ finish_returns cancelled_waiting_state (λ s',
      (∃ e, fin s' = FRet None (Some e) ∧ head (failures s') = Some e)
      ∨ (fin s' = FRet (Some (results s')) None ∧ failures s' = [])).
Proof.
  split; [reflexivity|]. split; [exact cancelled_waiting_draining|].
  split; [reflexivity|].
  exact (finish_always_returns None user_u 1 cancelled_waiting
           cancelled_waiting_state eq_refl cancelled_waiting_draining).
Defined.

Lemma finish_accounts_for_every_check_witness :
  run members_run (NewParallelChecker None user_u 2) = Some members_state
  ∧ fin members_state = FRet (Some [doc_c; doc_a]) None
  ∧ panicked members_state = None
  ∧ length (queued members_state) = 4
  ∧ toCheck_sendq members_state = []
  ∧ request_of user_u <$> queued members_state
    ≡ₚ w_req <$> workers members_state
  ∧ length (workers members_state) = length (queued members_state)
  ∧ ∀ i w, workers members_state !! i = Some w → ∃ o, w_phase w = PDone o.
Proof.
  split; [reflexivity|]. split; [reflexivity|]. split; [reflexivity|].
  split; [reflexivity|].
  exact (finish_accounts_for_every_check None user_u 2 members_run
           members_state (Some [doc_c; doc_a]) None eq_refl eq_refl eq_refl).
Defined.


(** * Properties of the compile options *)

Lemma SkipValidation_not_SourceFolder d :
  compiler.SkipValidation ≠ compiler.SourceFolder d.
Proof.
  intros H.
  apply (f_equal (λ f, compiler.skipValidation (f compiler.zero_config))) in H.
  done.
Qed.

Lemma SourceFolder_inj d d' :
  compiler.SourceFolder d = compiler.SourceFolder d' → d = d'.
Proof.
  intros H.
  apply (f_equal (λ f, compiler.sourceFolder (f compiler.zero_config))) in H.
  done.
Qed.

Lemma foldl_options (opts : list compiler.Option) (cfg : compiler.config) :
  Forall compiler.own_option opts →
  let cfg' := foldl (λ cfg fn, fn cfg) cfg opts in
  compiler.objectTypePrefix cfg' = compiler.objectTypePrefix cfg
  ∧ (compiler.SkipValidation ∈ opts ∨ compiler.skipValidation cfg = true →
       compiler.skipValidation cfg' = true)
  ∧ (compiler.SkipValidation ∉ opts →
       compiler.skipValidation cfg' = compiler.skipValidation cfg)
  ∧ (∀ pre d post, opts = pre ++ compiler.SourceFolder d :: post →
       (∀ d', compiler.SourceFolder d' ∉ post) →
       compiler.sourceFolder cfg' = d)
  ∧ ((∀ d, compiler.SourceFolder d ∉ opts) →
       compiler.sourceFolder cfg' = compiler.sourceFolder cfg).
Proof.
  intros Hall. revert cfg.
  induction Hall as [|fn opts Hfn Hall IH]; intros cfg; simpl.
  - split_and!; try done.
    + by intros [?%elem_of_nil|?].
    + intros [|] ? ? ?; simplify_eq.
  - destruct (IH (fn cfg)) as (Hp & Hs1 & Hs2 & Hf1 & Hf2).
    destruct Hfn as [->|[d0 ->]].
    + split_and!.
      * by rewrite Hp.
      * intros _. apply Hs1. by right.
      * intros Hni. exfalso. apply Hni. by left.
      * intros [|f pre] d post Heq Hpost; simpl in Heq.
        { injection Heq as Heq _.
          by apply SkipValidation_not_SourceFolder in Heq. }
        injection Heq as _ Heq. by eapply Hf1.
      * intros Hno. rewrite Hf2; [done|]. intros d Hd. apply (Hno d). by right.
    + split_and!.
      * by rewrite Hp.
      * intros [Hin|Hsk]; apply Hs1; [|by right].
        apply elem_of_cons in Hin as [Heq|?]; [|by left].
        by apply SkipValidation_not_SourceFolder in Heq.
      * intros Hni. rewrite Hs2; [done|]. intros Hin. apply Hni. by right.
      * intros [|f pre] d post Heq Hpost; simpl in Heq.
        { injection Heq as Heq <-. apply SourceFolder_inj in Heq as <-.
          by rewrite Hf2. }
        injection Heq as _ Heq. by eapply Hf1.
      * intros Hno. exfalso. apply (Hno d0). by left.
Qed.

(** X13: the prefix policy is decided by the prefix option alone.
    Whatever [SkipValidation] and [SourceFolder] options follow it, the
    configuration [compileImpl] builds has no prefix (nil) after
    [RequirePrefixedObjectType], the empty prefix after
    [AllowUnprefixedObjectType], and the given prefix after
    [ObjectTypePrefix]; so [AllowUnprefixedObjectType()] and
    [ObjectTypePrefix] of the empty string configure the same compiler,
    and requiring a prefix is what the zero configuration already does. *)
Theorem prefix_option_decides (opts : list compiler.Option) :
  Forall compiler.own_option opts →
  compiler.objectTypePrefix
    (compiler.compileImpl_cfg compiler.RequirePrefixedObjectType opts) = None
  ∧ compiler.objectTypePrefix
      (compiler.compileImpl_cfg compiler.AllowUnprefixedObjectType opts)
    = Some EmptyString
  ∧ (∀ prefix, compiler.objectTypePrefix
       (compiler.compileImpl_cfg (compiler.ObjectTypePrefix prefix) opts)
     = Some prefix)
  ∧ compiler.compileImpl_cfg compiler.AllowUnprefixedObjectType opts
    = compiler.compileImpl_cfg (compiler.ObjectTypePrefix EmptyString) opts
  ∧ compiler.compileImpl_cfg compiler.RequirePrefixedObjectType opts
    = foldl (λ cfg fn, fn cfg) compiler.zero_config opts.
Proof.
  intros Hall. unfold compiler.compileImpl_cfg. split_and!.
  - by destruct (foldl_options opts
      (compiler.RequirePrefixedObjectType compiler.zero_config) Hall) as [-> _].
  - by destruct (foldl_options opts
      (compiler.AllowUnprefixedObjectType compiler.zero_config) Hall) as [-> _].
  - intros prefix.
    by destruct (foldl_options opts
      (compiler.ObjectTypePrefix prefix compiler.zero_config) Hall) as [-> _].
  - done.
  - done.
Qed.

(** X14: the options compose as assignments.  In the configuration
    [compileImpl] builds from a prefix option and a list of
    [SkipValidation] and [SourceFolder] options, validation is skipped as
    soon as [SkipValidation] occurs anywhere in the list, and no option
    turns it on again; the source folder is that of the last
    [SourceFolder] option, and the empty string when there is none. *)
Theorem options_compose (prefix : compiler.ObjectPrefixOption)
    (opts : list compiler.Option) :
  Forall compiler.own_option opts →
  (compiler.SkipValidation ∈ opts →
     compiler.skipValidation (compiler.compileImpl_cfg prefix opts) = true)
  ∧ (compiler.SkipValidation ∉ opts →
       compiler.skipValidation (compiler.compileImpl_cfg prefix opts)
       = compiler.skipValidation (prefix compiler.zero_config))
  ∧ (∀ pre d post, opts = pre ++ compiler.SourceFolder d :: post →
       (∀ d', compiler.SourceFolder d' ∉ post) →
       compiler.sourceFolder (compiler.compileImpl_cfg prefix opts) = d)
  ∧ ((∀ d, compiler.SourceFolder d ∉ opts) →
       compiler.sourceFolder (compiler.compileImpl_cfg prefix opts)
       = compiler.sourceFolder (prefix compiler.zero_config)).
Proof.
  intros Hall. unfold compiler.compileImpl_cfg.
  destruct (foldl_options opts (prefix compiler.zero_config) Hall)
    as (_ & Hs1 & Hs2 & Hf1 & Hf2).
  split_and!; [by auto | done | done | done].
Qed.

Lemma sample_options_own : Forall compiler.own_option sample_options.
Proof.
  constructor; [right; eexists; reflexivity|].
  constructor; [left; reflexivity|].
  constructor; [right; eexists; reflexivity|].
  constructor.
Defined.

Lemma prefix_option_decides_witness :
  Forall compiler.own_option sample_options
  ∧ compiler.objectTypePrefix
      (compiler.compileImpl_cfg compiler.RequirePrefixedObjectType sample_options)
    = None
  ∧ compiler.objectTypePrefix
      (compiler.compileImpl_cfg compiler.AllowUnprefixedObjectType sample_options)
    = Some EmptyString
  ∧ (∀ prefix, compiler.objectTypePrefix
       (compiler.compileImpl_cfg (compiler.ObjectTypePrefix prefix) sample_options)
     = Some prefix)
  ∧ compiler.compileImpl_cfg compiler.AllowUnprefixedObjectType sample_options
    = compiler.compileImpl_cfg (compiler.ObjectTypePrefix EmptyString)
        sample_options
  ∧ compiler.compileImpl_cfg compiler.RequirePrefixedObjectType sample_options
    = foldl (λ cfg fn, fn cfg) compiler.zero_config sample_options.
Proof.
  split; [exact sample_options_own|].
  exact (prefix_option_decides sample_options sample_options_own).
Defined.

Lemma options_compose_witness :
  Forall compiler.own_option sample_options
  ∧ compiler.compileImpl_cfg (compiler.ObjectTypePrefix "org") sample_options
    = compiler.Config true (Some "org") "imports"
  ∧ compiler.skipValidation
      (compiler.compileImpl_cfg (compiler.ObjectTypePrefix "org") sample_options)
    = true
  ∧ compiler.sourceFolder
      (compiler.compileImpl_cfg (compiler.ObjectTypePrefix "org") sample_options)
    = "imports".
Proof.
  split; [exact sample_options_own|]. split; [reflexivity|].
  destruct (options_compose (compiler.ObjectTypePrefix "org") sample_options
              sample_options_own) as (Hs & _ & Hf & _).
  split.
  - apply Hs. right. left.
  - apply (Hf [compiler.SourceFolder "schemas"; compiler.SkipValidation]
              "imports" []); [reflexivity|].
    intros d' Hd'. by apply elem_of_nil in Hd'.
Defined.
